(** * useDApp: block-number subscription and the WalletConnect connector

  A shallow embedding of

  - [packages/core/src/providers/blockNumber/common/subscribeToNewBlock.ts]
  - [packages/connectors/wallet-connect/src/index.ts]

  Both files are coordination code around objects owned by other
  libraries (an ethers provider, a WalletConnect provider, a promise, the
  console).  The embedding keeps those objects in an explicit world and
  records every observable effect (listener registrations, dispatch calls,
  console output, constructor calls, emitted connector updates) in it. *)

From Stdlib Require Import HexString.
From stdpp Require Import base option list gmap strings.

Set Default Proof Using "Type".

(** ** Part I.  [subscribeToNewBlock] *)

Module BlockNumber.

(** [ChainId] is a numeric enum, block numbers are JS numbers.  Neither is
    ever computed with: both are only copied into the dispatched action. *)
Abbreviation ChainId := Z (only parsing).
Abbreviation BlockNo := Z (only parsing).

(** Objects are referred to by reference.  [ProviderRef] names a provider
    object, [DispatchRef] a React dispatch function. *)
Abbreviation ProviderRef := nat (only parsing).
Abbreviation DispatchRef := nat (only parsing).

(** The value a rejected promise carries. *)
Abbreviation Err := string (only parsing).

(** The action type [BlockNumberChanged] of the reducer. *)
Record BlockNumberChanged := mkBlockNumberChanged {
  chainId : ChainId;
  blockNumber : BlockNo
}.

(** A function object.  JS compares functions by identity, so every
    function object carries the identity [fn_id] it was allocated with.
    [UpdateFn chainId dispatch] is the arrow function of line 13,

      [(blockNumber: number) => dispatch({ chainId, blockNumber })]

    closed over [chainId] and [dispatch]; [OpaqueFn] is any function
    defined elsewhere (listeners of other parts of the application). *)
Inductive FnBody :=
| UpdateFn (cid : ChainId) (dispatch : DispatchRef)
| OpaqueFn.

Record Fn := mkFn {
  fn_id : nat;
  fn_body : FnBody
}.

(** One entry of a provider's listener table: [provider.on(tag, listener)]. *)
Record Listener := mkListener {
  tag : string;
  listener : Fn
}.

(** A call [dispatch(action)], together with the identity of the function
    object that made it. *)
Record DispatchCall := mkDispatchCall {
  caller : nat;
  callee : DispatchRef;
  action : BlockNumberChanged
}.

(** The promise returned by [provider.getBlockNumber()] after
    [.then(onFulfilled, onRejected)] of lines 16-21:
    [onFulfilled] is [(blockNumber) => update(blockNumber)] and
    [onRejected] is [(err) => { console.error(err) }].  A promise settles
    at most once. *)
Inductive BlockNumberPromise :=
| Pending (provider : ProviderRef) (update : Fn)
| Settled.

(** A listener call that the provider has scheduled.  An ethers provider
    does not call a listener inside [emit]: for each listener of the event
    it sets a timer of delay 0 whose callback makes the call, and [off]
    leaves a timer that is already set alone.  [Fired] once the call has
    been made. *)
Inductive Timer :=
| Scheduled (f : Fn) (n : BlockNo)
| Fired.

Record World := mkWorld {
  events : gmap nat (list Listener);     (* listener table of each provider *)
  promises : list BlockNumberPromise;    (* getBlockNumber() promises, by creation order *)
  dispatched : list DispatchCall;        (* every dispatch call made so far *)
  console : list Err;                    (* every console.error call so far *)
  next_fn : nat;                         (* identity of the next function object *)
  timers : list Timer                    (* the listener calls scheduled so far *)
}.

Definition listeners (w : World) (p : ProviderRef) : list Listener :=
  default [] (events w !! p).

Definition set_listeners (p : ProviderRef) (ls : list Listener) (w : World) : World :=
  mkWorld (<[p := ls]> (events w)) (promises w) (dispatched w) (console w) (next_fn w)
          (timers w).

(** [dispatch(action)] called from inside function object [by_fn]. *)
Definition dispatch_call (by_fn : nat) (dispatch : DispatchRef)
           (a : BlockNumberChanged) (w : World) : World :=
  mkWorld (events w) (promises w)
          (dispatched w ++ [mkDispatchCall by_fn dispatch a])
          (console w) (next_fn w) (timers w).

Definition console_error (e : Err) (w : World) : World :=
  mkWorld (events w) (promises w) (dispatched w) (console w ++ [e]) (next_fn w)
          (timers w).

(** Allocation of the arrow function [update] of line 13. *)
Definition new_update (cid : ChainId) (dispatch : DispatchRef) (w : World) : Fn * World :=
  (mkFn (next_fn w) (UpdateFn cid dispatch),
   mkWorld (events w) (promises w) (dispatched w) (console w) (S (next_fn w))
           (timers w)).

(** Calling a function object with a block number. *)
Definition call (f : Fn) (n : BlockNo) (w : World) : World :=
  match fn_body f with
  | UpdateFn cid dispatch => dispatch_call (fn_id f) dispatch (mkBlockNumberChanged cid n) w
  | OpaqueFn => w
  end.

(** *** The provider's event interface

    [on] appends an entry; [off] removes the first entry with the same
    tag and the same function object and keeps every other entry in
    place; [emit] schedules, in registration order, one call for each
    listener registered under the event's tag, and each scheduled call is
    made later, when its timer fires. *)
Definition same_listener (t : string) (f : Fn) (l : Listener) : bool :=
  String.eqb (tag l) t && Nat.eqb (fn_id (listener l)) (fn_id f).

Fixpoint remove_first (t : string) (f : Fn) (ls : list Listener) : list Listener :=
  match ls with
  | [] => []
  | l :: ls' => if same_listener t f l then ls' else l :: remove_first t f ls'
  end.

Definition on (p : ProviderRef) (t : string) (f : Fn) (w : World) : World :=
  set_listeners p (listeners w p ++ [mkListener t f]) w.

Definition off (p : ProviderRef) (t : string) (f : Fn) (w : World) : World :=
  set_listeners p (remove_first t f (listeners w p)) w.

Definition set_timers (ts : list Timer) (w : World) : World :=
  mkWorld (events w) (promises w) (dispatched w) (console w) (next_fn w) ts.

Definition schedule (t : string) (n : BlockNo) (l : Listener) : list Timer :=
  if String.eqb (tag l) t then [Scheduled (listener l) n] else [].

Definition emit (p : ProviderRef) (t : string) (n : BlockNo) (w : World) : World :=
  set_timers (timers w ++ flat_map (schedule t n) (listeners w p)) w.

(** Timer [k] fires: the call it was set for is made, once. *)
Definition fire (k : nat) (w : World) : World :=
  match timers w !! k with
  | Some (Scheduled f n) => call f n (set_timers (<[k := Fired]> (timers w)) w)
  | _ => w
  end.

(** [emit] with nothing happening before the timers it sets have fired, in
    the order they were set. *)
Definition emit_and_fire (p : ProviderRef) (t : string) (n : BlockNo) (w : World) : World :=
  foldl (fun w' k => fire k w') (emit p t n w)
        (seq (length (timers w)) (length (flat_map (schedule t n) (listeners w p)))).

(** [provider.getBlockNumber().then(...)]: a new pending promise whose
    fulfilment handler calls [update]. *)
Definition getBlockNumber_then (p : ProviderRef) (update : Fn) (w : World) : World :=
  mkWorld (events w) (promises w ++ [Pending p update])
          (dispatched w) (console w) (next_fn w) (timers w).

(** *** The function of the source file *)

(** The two arrow functions [subscribeToNewBlock] can return:
    [() => { provider.off('block', update) }] and [() => undefined]. *)
Inductive Cleanup :=
| OffBlock (provider : ProviderRef) (update : Fn)
| Noop.

Definition subscribeToNewBlock
           (provider : option ProviderRef) (chainId : option ChainId)
           (dispatch : DispatchRef) (isActive : bool) (w : World) : Cleanup * World :=
  match provider, chainId, isActive with
  | Some p, Some cid, true =>
      let '(update, w1) := new_update cid dispatch w in
      let w2 := on p "block" update w1 in
      let w3 := getBlockNumber_then p update w2 in
      (OffBlock p update, w3)
  | _, _, _ => (Noop, w)
  end.

Definition run_cleanup (c : Cleanup) (w : World) : World :=
  match c with
  | OffBlock p update => off p "block" update w
  | Noop => w
  end.

(** *** What can happen around a subscription

    The provider emits a block event ([BlockEmitted]) and the timers this
    sets fire one by one, at any later time ([TimerFires]); [NewBlock] is
    the block event whose timers fire before anything else happens.  A
    [getBlockNumber] promise settles, some component subscribes, some
    component runs a cleanup function. *)
Inductive Step :=
| NewBlock (p : ProviderRef) (n : BlockNo)
| Fulfil (i : nat) (n : BlockNo)
| Reject (i : nat) (e : Err)
| Subscribe (provider : option ProviderRef) (chainId : option ChainId)
            (dispatch : DispatchRef) (isActive : bool)
| Unsubscribe (c : Cleanup)
| BlockEmitted (p : ProviderRef) (n : BlockNo)
| TimerFires (k : nat).

Definition settle (i : nat) (w : World) : World :=
  mkWorld (events w) (<[i := Settled]> (promises w))
          (dispatched w) (console w) (next_fn w) (timers w).

Definition step (w : World) (s : Step) : World :=
  match s with
  | NewBlock p n => emit_and_fire p "block" n w
  | Fulfil i n =>
      match promises w !! i with
      | Some (Pending _ update) => call update n (settle i w)
      | _ => w
      end
  | Reject i e =>
      match promises w !! i with
      | Some (Pending _ _) => console_error e (settle i w)
      | _ => w
      end
  | Subscribe provider chainId dispatch isActive =>
      (subscribeToNewBlock provider chainId dispatch isActive w).2
  | Unsubscribe c => run_cleanup c w
  | BlockEmitted p n => emit p "block" n w
  | TimerFires k => fire k w
  end.

Definition run (ss : list Step) (w : World) : World := foldl step w ss.

(** The actions dispatched by the function object [h], oldest first. *)
Definition made_by (h : nat) (c : DispatchCall) : bool := Nat.eqb (caller c) h.

Definition actions_by (h : nat) (cs : list DispatchCall) : list (nat * BlockNumberChanged) :=
  (fun c => (callee c, action c)) <$> List.filter (made_by h) cs.

Definition dispatchedBy (h : nat) (w : World) : list (DispatchRef * BlockNumberChanged) :=
  actions_by h (dispatched w).

(** Every function object the world knows was allocated before [next_fn]. *)
Definition promise_fn_ok (b : nat) (pr : BlockNumberPromise) : Prop :=
  match pr with
  | Pending _ f => fn_id f < b
  | Settled => True
  end.

Definition timer_fn_ok (b : nat) (tm : Timer) : Prop :=
  match tm with
  | Scheduled f _ => fn_id f < b
  | Fired => True
  end.

Record well_formed (w : World) : Prop := {
  wf_listeners : forall p l, l ∈ listeners w p -> fn_id (listener l) < next_fn w;
  wf_promises : Forall (promise_fn_ok (next_fn w)) (promises w);
  wf_dispatched : Forall (fun c => caller c < next_fn w) (dispatched w);
  wf_timers : Forall (timer_fn_ok (next_fn w)) (timers w)
}.

Definition empty_world : World := mkWorld ∅ [] [] [] 0 [].

(** *** Vocabulary of the statements *)

(** The listeners whose function object is [h]. *)
Definition owned (h : nat) (l : Listener) : bool := Nat.eqb (fn_id (listener l)) h.

(** The dispatch calls one listener makes when event [t] carries [n]. *)
Definition calls_of (t : string) (n : Z) (l : Listener) : list DispatchCall :=
  if String.eqb (tag l) t then
    match fn_body (listener l) with
    | UpdateFn cid d => [mkDispatchCall (fn_id (listener l)) d (mkBlockNumberChanged cid n)]
    | OpaqueFn => []
    end
  else [].

Definition record_calls (cs : list DispatchCall) (w : World) : World :=
  mkWorld (events w) (promises w) (dispatched w ++ cs) (console w) (next_fn w) (timers w).

(** The dispatch calls made when a timer fires. *)
Definition timer_calls (tm : Timer) : list DispatchCall :=
  match tm with
  | Scheduled f n =>
      match fn_body f with
      | UpdateFn cid d => [mkDispatchCall (fn_id f) d (mkBlockNumberChanged cid n)]
      | OpaqueFn => []
      end
  | Fired => []
  end.

(** The timers set for a call of the function object [h] that have not
    fired yet, and their number. *)
Definition waits_for (h : nat) (tm : Timer) : bool :=
  match tm with
  | Scheduled f _ => Nat.eqb (fn_id f) h
  | Fired => false
  end.

Definition scheduled_for (h : nat) (w : World) : nat :=
  length (List.filter (waits_for h) (timers w)).

(** A step is said to cancel [h] when it runs a cleanup function that
    unregisters the function object [h]. *)
Definition cancels (h : nat) (s : Step) : Prop :=
  match s with
  | Unsubscribe (OffBlock _ f) => fn_id f = h
  | _ => False
  end.

(** The pending [getBlockNumber] promises that would call [h] sit at
    index [i0] only. *)
Definition fetch_only_at (h i0 : nat) (w : World) : Prop :=
  forall i q f, promises w !! i = Some (Pending q f) -> fn_id f = h -> i = i0.

(** [retired h i0 w]: the function object [h] exists, is registered on no
    provider, has no call scheduled, and is called by no pending promise
    but promise [i0]. *)
Record retired (h i0 : nat) (w : World) : Prop := {
  retired_allocated : h < next_fn w;
  retired_unowned : forall q, List.filter (owned h) (listeners w q) = [];
  retired_fetch : fetch_only_at h i0 w;
  retired_timers : List.filter (waits_for h) (timers w) = []
}.

(** [registered h p l w]: the function object [h] exists and its only
    entry in any listener table is [l], on provider [p]. *)
Record registered (h p : nat) (l : Listener) (w : World) : Prop := {
  registered_allocated : h < next_fn w;
  registered_owned :
    forall q, List.filter (owned h) (listeners w q) = if decide (p = q) then [l] else []
}.

(** Steps of the surroundings proper: block events, timers and promise
    settlements.  They never touch a listener table. *)
Definition external (s : Step) : Prop :=
  match s with
  | NewBlock _ _ | Fulfil _ _ | Reject _ _ | BlockEmitted _ _ | TimerFires _ => True
  | Subscribe _ _ _ _ | Unsubscribe _ => False
  end.

(** [at_most_registered h p l w]: like [registered], but the entry may
    already have been removed. *)
Record at_most_registered (h p : nat) (l : Listener) (w : World) : Prop := {
  amr_allocated : h < next_fn w;
  amr_owned : forall q,
    List.filter (owned h) (listeners w q) = [] \/
    (p = q /\ List.filter (owned h) (listeners w q) = [l])
}.

(** A step settles promise [i] when it fulfils or rejects it. *)
Definition settles (i : nat) (s : Step) : Prop :=
  match s with
  | Fulfil j _ | Reject j _ => j = i
  | _ => False
  end.

(** A world with one foreign block listener on provider 7. *)
Definition sample_world : World :=
  mkWorld {[ 7 := [mkListener "block" (mkFn 0 OpaqueFn)] ]} [] [] [] 1 [].

(** *** Vocabulary of the further properties *)

(** [tracked h p i0 update w]: what is left in [w] of the subscription that
    registered [update] (function object [h]) on provider [p] and whose
    initial fetch is promise [i0]: at most its one listener entry, a
    promise [i0] that either still waits to call [update] or is settled,
    and timers that, when set for [h], are set for [update]. *)
Record tracked (h p i0 : nat) (update : Fn) (w : World) : Prop := {
  tracked_entry : at_most_registered h p (mkListener "block" update) w;
  tracked_fetch : fetch_only_at h i0 w;
  tracked_promise :
    promises w !! i0 = Some (Pending p update) \/ promises w !! i0 = Some Settled;
  tracked_timers :
    forall k f n, timers w !! k = Some (Scheduled f n) -> fn_id f = h -> f = update
}.

(** 1 while promise [i] is pending, 0 once it is settled. *)
Definition pending_at (i : nat) (w : World) : nat :=
  match promises w !! i with
  | Some (Pending _ _) => 1
  | _ => 0
  end.

Definition is_block_of (p : nat) (s : Step) : bool :=
  match s with
  | NewBlock q _ | BlockEmitted q _ => Nat.eqb q p
  | _ => false
  end.

(** The number of block events of provider [p] among some steps. *)
Definition blocks_of (p : nat) (ss : list Step) : nat :=
  length (List.filter (is_block_of p) ss).

End BlockNumber.

(** ** Part II.  [WalletConnectConnector] *)

Module WalletConnect.

(** What a [throw] or a rejected promise carries: [new Error(message)], the
    [TypeError] of a member access on [undefined], or a value of the
    library that failed. *)
Inductive Thrown :=
| JsError (message : string)
| TypeError
| Foreign (reason : string).

Inductive Outcome (A : Type) :=
| Returns (a : A)
| Throws (e : Thrown).
Arguments Returns {A} a.
Arguments Throws {A} e.

(** The JSON-RPC methods the connector sends, indexed by the type the
    source gives to their result
    ([const chainId: string], [const accounts: string[]]). *)
Inductive Method : Type -> Type :=
| eth_chainId : Method string
| eth_accounts : Method (list string).

Definition method_name {R} (m : Method R) : string :=
  match m with
  | eth_chainId => "eth_chainId"
  | eth_accounts => "eth_accounts"
  end.

Section Connector.

(** [IWalletConnectProviderOptions] and the JS number type are left
    abstract, and so is the builtin [parseInt]. *)
Context {Opts Number : Type}.
Variable parseInt : string -> Number.

(** The two provider objects [init] constructs.  An object has the
    identity it was allocated with; a [Web3Provider] keeps the provider it
    wraps in its field [provider] (here [wrapped]). *)
Record WalletConnectProvider := mkWalletConnectProvider {
  wc_id : nat;
  wc_opts : Opts
}.

Record Web3Provider := mkWeb3Provider {
  web3_id : nat;
  wrapped : WalletConnectProvider
}.

Record ConnectorUpdateData := mkConnectorUpdateData {
  chainId : Number;
  accounts : list string
}.

(** Everything the connector does to the outside, in the order it does it. *)
Inductive Effect :=
| NewWalletConnectProvider (o : Opts)
| NewWeb3Provider (wc : WalletConnectProvider)
| Enable (wc : WalletConnectProvider)
| Send (p : Web3Provider) (method : string)
| Emit (data : ConnectorUpdateData)
| ConsoleDebug (e : Thrown)
| ConsoleLog (e : Thrown).

(** How the outside answers during one call of a connector method: whether
    each constructor returns, whether [enable] resolves, what the wallet
    answers to a request, whether a subscriber of [update] throws. *)
Record Env := mkEnv {
  env_new_wc : Opts -> Outcome unit;
  env_new_web3 : WalletConnectProvider -> Outcome unit;
  env_enable : WalletConnectProvider -> Outcome (list string);
  env_send : Web3Provider -> forall R, Method R -> Outcome R;
  env_emit : ConnectorUpdateData -> Outcome unit
}.

(** The fields of the class: [provider] and the constructor's [opts]. *)
Record WalletConnectConnector := mkConnector {
  provider : option Web3Provider;
  opts : Opts
}.

Definition name : string := "WalletConnect".

Record World := mkWorld {
  this : WalletConnectConnector;
  next_obj : nat                      (* identity of the next object *)
}.

(** *** Computations: state, effects and exceptions

    A method runs from a world to an outcome, a final world and the list of
    its effects.  An [await] is a point where the outside answers; the
    methods of one connector are run one after the other. *)

Record Run (A : Type) := mkRun {
  outcome : Outcome A;
  final : World;
  effects : list Effect
}.
Arguments mkRun {A} outcome final effects.
Arguments outcome {A} r.
Arguments final {A} r.
Arguments effects {A} r.

Definition M (A : Type) : Type := World -> Run A.

Definition ret {A} (a : A) : M A := fun w => mkRun (Returns a) w [].

Definition throw {A} (e : Thrown) : M A := fun w => mkRun (Throws e) w [].

Definition bind {A B} (m : M A) (k : A -> M B) : M B := fun w =>
  match m w with
  | mkRun (Returns a) w1 efs1 =>
      match k a w1 with
      | mkRun o w2 efs2 => mkRun o w2 (efs1 ++ efs2)
      end
  | mkRun (Throws e) w1 efs1 => mkRun (Throws e) w1 efs1
  end.

(** [try { body } catch (e) { handler }] *)
Definition try_catch {A} (body : M A) (handler : Thrown -> M A) : M A := fun w =>
  match body w with
  | mkRun (Returns a) w1 efs1 => mkRun (Returns a) w1 efs1
  | mkRun (Throws e) w1 efs1 =>
      match handler e w1 with
      | mkRun o w2 efs2 => mkRun o w2 (efs1 ++ efs2)
      end
  end.

(** A call into the outside: it is recorded, then it returns or throws. *)
Definition call_out {A} (ef : Effect) (o : Outcome A) : M A := fun w => mkRun o w [ef].

Definition get_this : M WalletConnectConnector := fun w => mkRun (Returns (this w)) w [].

Definition set_provider (p : option Web3Provider) : M unit := fun w =>
  mkRun (Returns tt) (mkWorld (mkConnector p (opts (this w))) (next_obj w)) [].

Definition fresh_id : M nat := fun w =>
  mkRun (Returns (next_obj w)) (mkWorld (this w) (S (next_obj w))) [].

Notation "x <- m ;; k" := (bind m (fun x => k))
  (at level 100, m at next level, k at level 200, right associativity).
Notation "m ;; k" := (bind m (fun _ => k))
  (at level 100, k at level 200, right associativity).

(** [new WalletConnectProvider(opts)] *)
Definition new_WalletConnectProvider (env : Env) (o : Opts) : M WalletConnectProvider :=
  call_out (NewWalletConnectProvider o) (env_new_wc env o) ;;
  i <- fresh_id ;;
  ret (mkWalletConnectProvider i o).

(** [new providers.Web3Provider(walletConnectProvider)] *)
Definition new_Web3Provider (env : Env) (wc : WalletConnectProvider) : M Web3Provider :=
  call_out (NewWeb3Provider wc) (env_new_web3 env wc) ;;
  i <- fresh_id ;;
  ret (mkWeb3Provider i wc).

(** [await walletConnectProvider.enable()] *)
Definition enable (env : Env) (wc : WalletConnectProvider) : M (list string) :=
  call_out (Enable wc) (env_enable env wc).

(** [await provider.send(method, [])] *)
Definition send (env : Env) (p : Web3Provider) {R} (m : Method R) : M R :=
  call_out (Send p (method_name m)) (env_send env p R m).

(** [this.update.emit(data)].  [ConnectorEvent] belongs to [@usedapp/core];
    whether one of its subscribers throws is up to the outside. *)
Definition emit (env : Env) (data : ConnectorUpdateData) : M unit :=
  call_out (Emit data) (env_emit env data).

Definition console_debug (e : Thrown) : M unit := call_out (ConsoleDebug e) (Returns tt).

Definition console_log (e : Thrown) : M unit := call_out (ConsoleLog e) (Returns tt).

(** [this.provider!.m(...)] and [this.provider?.provider.m(...)]: a member
    access that throws a [TypeError] when [this.provider] is undefined. *)
Definition the_provider : M Web3Provider :=
  c <- get_this ;;
  match provider c with
  | Some p => ret p
  | None => throw TypeError
  end.

(** *** The methods of the class *)

Definition init (env : Env) : M unit :=
  c <- get_this ;;
  match provider c with
  | Some _ => ret tt
  | None =>
      walletConnectProvider <- new_WalletConnectProvider env (opts c) ;;
      web3 <- new_Web3Provider env walletConnectProvider ;;
      set_provider (Some web3) ;;
      p <- the_provider ;;
      enable env (wrapped p) ;;
      ret tt
  end.

Definition connectEagerly (env : Env) : M unit :=
  try_catch
    (init env ;;
     p <- the_provider ;;
     chainId <- send env p eth_chainId ;;
     p' <- the_provider ;;
     accounts <- send env p' eth_accounts ;;
     emit env (mkConnectorUpdateData (parseInt chainId) accounts))
    (fun e => console_debug e).

Definition activate (env : Env) : M unit :=
  try_catch
    (init env ;;
     p <- the_provider ;;
     chainId <- send env p eth_chainId ;;
     p' <- the_provider ;;
     accounts <- send env p' eth_accounts ;;
     emit env (mkConnectorUpdateData (parseInt chainId) accounts))
    (fun e => console_log e ;; throw (JsError "Could not activate connector")).

Definition deactivate : M unit := set_provider None.

(** *** Series of calls *)

Inductive Call :=
| ConnectEagerly (env : Env)
| Activate (env : Env)
| Deactivate.

Definition perform (c : Call) : M unit :=
  match c with
  | ConnectEagerly env => connectEagerly env
  | Activate env => activate env
  | Deactivate => deactivate
  end.

(** A series of calls, each awaited before the next is made.  A call that
    throws does not stop the caller from making the next one. *)
Fixpoint perform_all (cs : list Call) (w : World) : World * list Effect :=
  match cs with
  | [] => (w, [])
  | c :: cs' =>
      let r := perform c w in
      let '(w', efs) := perform_all cs' (final r) in
      (w', effects r ++ efs)
  end.

(** The update events among some effects. *)
Definition emitted (efs : list Effect) : list ConnectorUpdateData :=
  omap (fun ef => match ef with Emit d => Some d | _ => None end) efs.

(** The constructor and [enable] calls among some effects. *)
Definition sets_up (ef : Effect) : bool :=
  match ef with
  | NewWalletConnectProvider _ | NewWeb3Provider _ | Enable _ => true
  | _ => false
  end.

(** The objects of a world were allocated before [next_obj]. *)
Definition allocated (w : World) : Prop :=
  match provider (this w) with
  | Some p => web3_id p < next_obj w /\ wc_id (wrapped p) < next_obj w
  | None => True
  end.

(** *** Vocabulary of the statements *)

(** The [try] block, which [connectEagerly] and [activate] have in common;
    they differ in their [catch] block. *)
Definition announce (env : Env) : M unit :=
  bind (init env) (fun _ =>
  bind the_provider (fun p =>
  bind (send env p eth_chainId) (fun chainId =>
  bind the_provider (fun p' =>
  bind (send env p' eth_accounts) (fun accounts =>
  emit env (mkConnectorUpdateData (parseInt chainId) accounts)))))).

(** [fails_at env w requests e]: started in [w] against [env], the [try]
    block fails with [e] after [init] and the requests [requests]. *)
Inductive fails_at (env : Env) (w : World) : list Effect -> Thrown -> Prop :=
| fails_at_init e :
    outcome (init env w) = Throws e ->
    fails_at env w [] e
| fails_at_chainId p e :
    outcome (init env w) = Returns tt ->
    provider (this (final (init env w))) = Some p ->
    env_send env p _ eth_chainId = Throws e ->
    fails_at env w [Send p "eth_chainId"] e
| fails_at_accounts p s e :
    outcome (init env w) = Returns tt ->
    provider (this (final (init env w))) = Some p ->
    env_send env p _ eth_chainId = Returns s ->
    env_send env p _ eth_accounts = Throws e ->
    fails_at env w [Send p "eth_chainId"; Send p "eth_accounts"] e.

(** [succeeds env w p s a]: initialization succeeds, leaving provider [p],
    and the wallet answers [s] to 'eth_chainId' and [a] to 'eth_accounts'. *)
Definition succeeds (env : Env) (w : World) (p : Web3Provider)
           (s : string) (a : list string) : Prop :=
  outcome (init env w) = Returns tt
  /\ provider (this (final (init env w))) = Some p
  /\ env_send env p _ eth_chainId = Returns s
  /\ env_send env p _ eth_accounts = Returns a.

(** *** Vocabulary of the further properties *)

(** An effect with [console.log] read as [console.debug]. *)
Definition demote (ef : Effect) : Effect :=
  match ef with
  | ConsoleLog e => ConsoleDebug e
  | _ => ef
  end.

(** The calls that try to connect: all but [deactivate]. *)
Definition connects (c : Call) : bool :=
  match c with
  | ConnectEagerly _ | Activate _ => true
  | Deactivate => false
  end.

(** [built_from o ef]: if [ef] constructs or enables a provider, it is one
    with the options [o]. *)
Definition built_from (o : Opts) (ef : Effect) : Prop :=
  match ef with
  | NewWalletConnectProvider o' => o' = o
  | NewWeb3Provider wc | Enable wc => wc_opts wc = o
  | _ => True
  end.

End Connector.

Arguments WalletConnectProvider : clear implicits.
Arguments Web3Provider : clear implicits.
Arguments ConnectorUpdateData : clear implicits.
Arguments Effect : clear implicits.
Arguments Env : clear implicits.
Arguments WalletConnectConnector : clear implicits.
Arguments World : clear implicits.
Arguments Run : clear implicits.
Arguments M : clear implicits.
Arguments Call : clear implicits.
Arguments mkRun {Opts Number A} outcome final effects.
Arguments outcome {Opts Number A} r.
Arguments final {Opts Number A} r.
Arguments effects {Opts Number A} r.

(** *** A concrete wallet

    Options are a project id, numbers are integers, and [HexString.to_Z]
    stands in for [parseInt] on the hexadecimal quantities a wallet answers
    'eth_chainId' with. *)

Definition account : string := "0x52908400098527886E0F7030069857D2E4169EE7".

(** A wallet that accepts the session and answers every request. *)
Definition wallet_ok : Env string Z :=
  mkEnv (fun _ => Returns tt)
        (fun _ => Returns tt)
        (fun _ => Returns [account])
        (fun _ R (m : Method R) =>
           match m in Method R return Outcome R with
           | eth_chainId => Returns "0x89"
           | eth_accounts => Returns [account]
           end)
        (fun _ => Returns tt).

(** The user closes the QR code modal: [enable] rejects. *)
Definition wallet_refused : Env string Z :=
  mkEnv (fun _ => Returns tt)
        (fun _ => Returns tt)
        (fun _ => Throws (JsError "User closed modal"))
        (env_send wallet_ok)
        (fun _ => Returns tt).

(** The session is up but the wallet does not answer 'eth_accounts'. *)
Definition wallet_silent : Env string Z :=
  mkEnv (fun _ => Returns tt)
        (fun _ => Returns tt)
        (fun _ => Returns [account])
        (fun _ R (m : Method R) =>
           match m in Method R return Outcome R with
           | eth_chainId => Returns "0x89"
           | eth_accounts => Throws (Foreign "timeout")
           end)
        (fun _ => Returns tt).

(** [new WalletConnectConnector(opts)] *)
Definition new_connector (o : string) : World string := mkWorld (mkConnector None o) 0.

Definition first_provider : Web3Provider string :=
  mkWeb3Provider 1 (mkWalletConnectProvider 0 "project-id").

End WalletConnect.

(** ** Facts about [subscribeToNewBlock] *)

Module BlockNumberFacts.
Import BlockNumber.

(** *** Listener tables *)

Lemma listeners_set_listeners p ls w q :
  listeners (set_listeners p ls w) q = if decide (p = q) then ls else listeners w q.
Proof.
  unfold listeners, set_listeners; simpl.
  rewrite lookup_insert. by case_decide.
Qed.

Lemma listeners_on p t f w q :
  listeners (on p t f w) q =
  if decide (p = q) then listeners w p ++ [mkListener t f] else listeners w q.
Proof. apply listeners_set_listeners. Qed.

Lemma listeners_off p t f w q :
  listeners (off p t f w) q =
  if decide (p = q) then remove_first t f (listeners w p) else listeners w q.
Proof. apply listeners_set_listeners. Qed.

Lemma owned_fresh h ls :
  (forall l, l ∈ ls -> fn_id (listener l) < h) -> List.filter (owned h) ls = [].
Proof.
  induction ls as [|l ls IH]; intros Hlt; [done|]. simpl.
  assert (fn_id (listener l) < h) as Hl by (apply Hlt; left).
  unfold owned at 1. destruct (Nat.eqb_spec (fn_id (listener l)) h); [lia|].
  apply IH. intros l' Hl'. apply Hlt. by right.
Qed.

Lemma remove_first_snoc_fresh t f ls :
  List.filter (owned (fn_id f)) ls = [] ->
  remove_first t f (ls ++ [mkListener t f]) = ls.
Proof.
  induction ls as [|l ls IH]; simpl.
  - intros _. unfold same_listener; simpl.
    by rewrite String.eqb_refl, Nat.eqb_refl.
  - unfold owned at 1, same_listener.
    destruct (Nat.eqb (fn_id (listener l)) (fn_id f)); [done|].
    rewrite andb_false_r. intros H. by rewrite IH.
Qed.

(** Removing the listener of another function object leaves the entries of
    [h] alone. *)
Lemma filter_owned_remove_first_ne h t f ls :
  fn_id f <> h ->
  List.filter (owned h) (remove_first t f ls) = List.filter (owned h) ls.
Proof.
  intros Hne. induction ls as [|l ls IH]; [done|]. simpl.
  destruct (same_listener t f l) eqn:Hs.
  - unfold same_listener in Hs. apply andb_true_iff in Hs as [_ Hid].
    apply Nat.eqb_eq in Hid. unfold owned at 2.
    destruct (Nat.eqb_spec (fn_id (listener l)) h); [congruence|done].
  - simpl. by rewrite IH.
Qed.

Lemma filter_owned_remove_first_nil h t f ls :
  List.filter (owned h) ls = [] -> List.filter (owned h) (remove_first t f ls) = [].
Proof.
  induction ls as [|l ls IH]; [done|]. simpl.
  destruct (owned h l) eqn:Ho; [done|]. intros Hnil.
  destruct (same_listener t f l); [done|]. simpl. rewrite Ho. by apply IH.
Qed.

(** *** Emitting an event *)

Lemma record_calls_nil w : record_calls [] w = w.
Proof. destruct w. unfold record_calls; simpl. by rewrite app_nil_r. Qed.

Lemma record_calls_app cs cs' w :
  record_calls cs' (record_calls cs w) = record_calls (cs ++ cs') w.
Proof. unfold record_calls; simpl. by rewrite app_assoc. Qed.

Lemma call_calls f n w :
  call f n w = record_calls (timer_calls (Scheduled f n)) w.
Proof. unfold call; simpl. destruct (fn_body f); [done|by rewrite record_calls_nil]. Qed.

(** The calls [emit] schedules are those of the listeners it finds. *)
Lemma timer_calls_schedule t n ls :
  flat_map timer_calls (flat_map (schedule t n) ls) = flat_map (calls_of t n) ls.
Proof.
  induction ls as [|l ls IH]; [done|]. simpl.
  rewrite flat_map_app, IH. f_equal.
  unfold schedule, calls_of. destruct (String.eqb (tag l) t); [|done].
  simpl. apply app_nil_r.
Qed.

Lemma fire_calls pre tm rest w :
  timers w = pre ++ tm :: rest ->
  fire (length pre) w = record_calls (timer_calls tm) (set_timers (pre ++ Fired :: rest) w).
Proof.
  intros Hts. unfold fire. rewrite Hts, list_lookup_middle by done.
  destruct tm as [f n|].
  - rewrite call_calls. do 2 f_equal.
    replace (length pre) with (length pre + 0) by lia. by rewrite insert_app_r.
  - destruct w. simpl in *. subst. unfold record_calls, set_timers; simpl.
    by rewrite app_nil_r.
Qed.

Lemma fire_all pre new w :
  timers w = pre ++ new ->
  foldl (fun w' k => fire k w') w (seq (length pre) (length new)) =
  record_calls (flat_map timer_calls new)
               (set_timers (pre ++ replicate (length new) Fired) w).
Proof.
  revert pre w. induction new as [|tm new IH]; intros pre w Hts.
  - destruct w. simpl in *. subst. unfold record_calls, set_timers; simpl.
    by rewrite !app_nil_r.
  - simpl. rewrite (fire_calls pre tm new w Hts).
    replace (S (length pre)) with (length (pre ++ [Fired]))
      by (rewrite length_app; simpl; lia).
    rewrite IH by (simpl; by rewrite <- app_assoc).
    unfold record_calls, set_timers; simpl. f_equal.
    + by rewrite app_assoc.
    + by rewrite <- app_assoc.
Qed.

(** A block event whose timers fire at once calls the listeners in
    registration order. *)
Lemma emit_calls p t n w :
  emit_and_fire p t n w =
  record_calls (flat_map (calls_of t n) (listeners w p))
               (set_timers (timers w ++
                            replicate (length (flat_map (schedule t n) (listeners w p))) Fired)
                           w).
Proof.
  unfold emit_and_fire.
  rewrite (fire_all (timers w) (flat_map (schedule t n) (listeners w p))) by done.
  by rewrite timer_calls_schedule.
Qed.

(** A [NewBlock] step is a [BlockEmitted] step followed by the firing of
    the timers it has set. *)
Lemma NewBlock_steps p n w :
  step w (NewBlock p n) =
  run (BlockEmitted p n ::
       (TimerFires <$> seq (length (timers w))
                           (length (flat_map (schedule "block" n) (listeners w p))))) w.
Proof.
  unfold run. simpl. unfold emit_and_fire.
  generalize (emit p "block" n w) as W.
  generalize (seq (length (timers w))
                  (length (flat_map (schedule "block" n) (listeners w p)))) as ks.
  induction ks as [|k ks IH]; intros W; [done|]. simpl. apply IH.
Qed.

(** *** The dispatches of one function object *)

Lemma actions_by_app h cs cs' :
  actions_by h (cs ++ cs') = actions_by h cs ++ actions_by h cs'.
Proof. unfold actions_by. by rewrite List.filter_app, fmap_app. Qed.

Lemma dispatchedBy_record_calls h cs w :
  dispatchedBy h (record_calls cs w) = dispatchedBy h w ++ actions_by h cs.
Proof. apply actions_by_app. Qed.

Lemma actions_by_fresh h cs :
  Forall (fun c => caller c < h) cs -> actions_by h cs = [].
Proof.
  unfold actions_by. induction 1 as [|c cs Hc _ IH]; [done|]. simpl.
  unfold made_by at 1. destruct (Nat.eqb_spec (caller c) h); [lia|done].
Qed.

(** A listener only ever dispatches in its own name. *)
Lemma actions_by_calls_of h t n ls :
  actions_by h (flat_map (calls_of t n) ls) =
  actions_by h (flat_map (calls_of t n) (List.filter (owned h) ls)).
Proof.
  induction ls as [|l ls IH]; [done|]. simpl.
  rewrite actions_by_app, IH. unfold owned at 2.
  destruct (Nat.eqb_spec (fn_id (listener l)) h) as [Heq|Hne]; simpl.
  - by rewrite actions_by_app.
  - replace (actions_by h (calls_of t n l)) with (@nil (nat * BlockNumberChanged)); [done|].
    unfold calls_of. destruct (String.eqb (tag l) t); [|done].
    destruct (fn_body (listener l)); [|done].
    unfold actions_by; simpl. unfold made_by; simpl.
    by destruct (Nat.eqb_spec (fn_id (listener l)) h).
Qed.

Lemma actions_by_update h cid d n :
  actions_by h (calls_of "block" n (mkListener "block" (mkFn h (UpdateFn cid d)))) =
  [(d, mkBlockNumberChanged cid n)].
Proof.
  unfold actions_by, calls_of; simpl. unfold made_by; simpl.
  by rewrite Nat.eqb_refl.
Qed.

(** *** Timers *)

Lemma fire_run k w :
  fire k w =
  match timers w !! k with
  | Some (Scheduled f n) =>
      record_calls (timer_calls (Scheduled f n)) (set_timers (<[k := Fired]> (timers w)) w)
  | _ => w
  end.
Proof. unfold fire. destruct (timers w !! k) as [[f n|]|]; [|done|done]. apply call_calls. Qed.

Lemma waits_for_schedule h t n ls :
  List.filter (waits_for h) (flat_map (schedule t n) ls) =
  flat_map (schedule t n) (List.filter (owned h) ls).
Proof.
  induction ls as [|l ls IH]; [done|]. simpl.
  rewrite List.filter_app, IH. unfold owned at 2.
  destruct (Nat.eqb (fn_id (listener l)) h) eqn:Hl; simpl.
  - f_equal. unfold schedule. destruct (String.eqb (tag l) t); [|done].
    simpl. by rewrite Hl.
  - replace (List.filter (waits_for h) (schedule t n l)) with (@nil Timer); [done|].
    unfold schedule. destruct (String.eqb (tag l) t); [|done]. simpl. by rewrite Hl.
Qed.

Lemma waits_for_replicate h k : List.filter (waits_for h) (replicate k Fired) = [].
Proof. induction k as [|k IH]; [done|]. simpl. exact IH. Qed.

Lemma waits_for_lookup h ts k f n :
  List.filter (waits_for h) ts = [] -> ts !! k = Some (Scheduled f n) -> fn_id f <> h.
Proof.
  revert k. induction ts as [|tm ts IH]; intros k Hnil Hk; [done|].
  simpl in Hnil. destruct (waits_for h tm) eqn:Htm; [done|].
  destruct k as [|k]; simpl in Hk.
  - injection Hk as ->. simpl in Htm. by apply Nat.eqb_neq.
  - by eapply IH.
Qed.

(** Firing a timer leaves one call less to wait for. *)
Lemma waits_for_fired h ts k tm :
  ts !! k = Some tm ->
  length (List.filter (waits_for h) (<[k := Fired]> ts)) +
  (if waits_for h tm then 1 else 0) =
  length (List.filter (waits_for h) ts).
Proof.
  revert k. induction ts as [|tm' ts IH]; intros k Hk; [done|].
  destruct k as [|k]; simpl in *.
  - injection Hk as ->. destruct (waits_for h tm); simpl; lia.
  - specialize (IH k Hk). destruct (waits_for h tm'); simpl; lia.
Qed.

Lemma waits_for_fired_nil h ts k :
  List.filter (waits_for h) ts = [] -> List.filter (waits_for h) (<[k := Fired]> ts) = [].
Proof.
  revert k. induction ts as [|tm ts IH]; intros k Hnil; [done|].
  simpl in Hnil. destruct (waits_for h tm) eqn:Htm; [done|].
  destruct k as [|k]; simpl; [done|]. rewrite Htm. by apply IH.
Qed.

(** *** One step of the surroundings *)

Lemma listeners_record_calls cs w q : listeners (record_calls cs w) q = listeners w q.
Proof. done. Qed.

(** What an active subscription does to the world, field by field. *)
Lemma subscribe_active p cid d w :
  subscribeToNewBlock (Some p) (Some cid) d true w =
  let update := mkFn (next_fn w) (UpdateFn cid d) in
  (OffBlock p update,
   mkWorld (<[p := listeners w p ++ [mkListener "block" update]]> (events w))
           (promises w ++ [Pending p update])
           (dispatched w) (console w) (S (next_fn w)) (timers w)).
Proof. done. Qed.

Lemma subscribe_inactive (provider : option nat) (chainId : option Z) (d : nat)
      (isActive : bool) (w : World) :
  provider = None \/ chainId = None \/ isActive = false ->
  subscribeToNewBlock provider chainId d isActive w = (Noop, w).
Proof.
  intros [->|[->| ->]]; unfold subscribeToNewBlock;
    repeat case_match; congruence.
Qed.

Lemma subscribe_cases (provider : option nat) (chainId : option Z) (isActive : bool) :
  (exists p cid, provider = Some p /\ chainId = Some cid /\ isActive = true) \/
  (provider = None \/ chainId = None \/ isActive = false).
Proof.
  destruct provider as [p|]; [|by right; left].
  destruct chainId as [cid|]; [|by right; right; left].
  destruct isActive; [|by right; right; right].
  left. by exists p, cid.
Qed.

Lemma listeners_subscribe provider chainId d isActive w q :
  listeners (subscribeToNewBlock provider chainId d isActive w).2 q =
  match provider, chainId, isActive with
  | Some p, Some cid, true =>
      if decide (p = q)
      then listeners w p ++ [mkListener "block" (mkFn (next_fn w) (UpdateFn cid d))]
      else listeners w q
  | _, _, _ => listeners w q
  end.
Proof.
  destruct (subscribe_cases provider chainId isActive)
    as [(p & cid & -> & -> & ->)|H].
  - rewrite subscribe_active. unfold listeners; simpl.
    rewrite lookup_insert. by case_decide.
  - rewrite subscribe_inactive by done. simpl.
    destruct H as [->|[->| ->]]; repeat case_match; done.
Qed.

Lemma next_fn_step w s : next_fn w <= next_fn (step w s).
Proof.
  destruct s as [p n|i n|i e|provider chainId d isActive|c|p n|k]; simpl.
  - by rewrite emit_calls.
  - repeat case_match; try done. by rewrite call_calls.
  - repeat case_match; done.
  - destruct (subscribe_cases provider chainId isActive)
      as [(p & cid & -> & -> & ->)|H].
    + rewrite subscribe_active; simpl; lia.
    + by rewrite subscribe_inactive.
  - by destruct c.
  - done.
  - rewrite fire_run. by repeat case_match.
Qed.

Lemma next_fn_run ss w : next_fn w <= next_fn (run ss w).
Proof.
  revert w. induction ss as [|s ss IH]; intros w; simpl; [done|].
  etrans; [apply (next_fn_step w s)|apply IH].
Qed.

(** No step but a cancelling one touches the entries of an existing
    function object. *)
Lemma owned_step h w s q :
  h < next_fn w -> ~ cancels h s ->
  List.filter (owned h) (listeners (step w s) q) = List.filter (owned h) (listeners w q).
Proof.
  intros Hlt Hs.
  destruct s as [p n|i n|i e|provider chainId d isActive|c|p n|k]; simpl.
  - by rewrite emit_calls.
  - repeat case_match; try done. by rewrite call_calls.
  - repeat case_match; done.
  - rewrite listeners_subscribe. repeat case_match; try done; subst.
    rewrite List.filter_app; simpl. unfold owned at 2; simpl.
    destruct (Nat.eqb_spec (next_fn w) h); [lia|]. by rewrite app_nil_r.
  - destruct c as [p f|]; [|done]. simpl in *.
    rewrite listeners_off. case_decide; [subst|done].
    by apply filter_owned_remove_first_ne.
  - done.
  - rewrite fire_run. by repeat case_match.
Qed.

(** Once a function object has no entry left, no step brings one back. *)
Lemma unowned_step h w s :
  h < next_fn w ->
  (forall q, List.filter (owned h) (listeners w q) = []) ->
  forall q, List.filter (owned h) (listeners (step w s) q) = [].
Proof.
  intros Hlt Hnil q.
  destruct s as [p n|i n|i e|provider chainId d isActive|[p f|]|p n|k];
    try (rewrite owned_step by (done || (simpl; tauto)); apply Hnil).
  simpl. rewrite listeners_off. case_decide; [subst|done].
  by apply filter_owned_remove_first_nil.
Qed.

(** *** Dispatches along a step *)

Lemma dispatchedBy_new_block h w p n :
  dispatchedBy h (step w (NewBlock p n)) =
  dispatchedBy h w ++
  actions_by h (flat_map (calls_of "block" n) (List.filter (owned h) (listeners w p))).
Proof.
  simpl. rewrite emit_calls, dispatchedBy_record_calls.
  by rewrite actions_by_calls_of.
Qed.

Lemma actions_by_other h (f : Fn) n :
  fn_id f <> h -> actions_by h (timer_calls (Scheduled f n)) = [].
Proof.
  intros Hne. simpl. destruct (fn_body f); [|done].
  unfold actions_by; simpl. unfold made_by; simpl.
  by destruct (Nat.eqb_spec (fn_id f) h).
Qed.

Lemma promises_settle_pending i w j q f :
  promises (settle i w) !! j = Some (Pending q f) -> promises w !! j = Some (Pending q f).
Proof.
  simpl. destruct (decide (i = j)) as [->|Hne].
  - destruct (decide (j < length (promises w))) as [Hlt|Hge].
    + by rewrite list_lookup_insert_eq.
    + by rewrite list_insert_ge by lia.
  - by rewrite list_lookup_insert_ne.
Qed.

Lemma fetch_only_at_step h i0 w s :
  h < next_fn w -> fetch_only_at h i0 w -> fetch_only_at h i0 (step w s).
Proof.
  intros Hlt Hw.
  destruct s as [p n|i n|i e|provider chainId d isActive|c|p n|k]; simpl.
  - by rewrite emit_calls.
  - destruct (promises w !! i) as [[q f|]|] eqn:Hi; try done.
    rewrite call_calls. intros j q' f' Hj. simpl in Hj.
    apply (promises_settle_pending i w) in Hj. by eapply Hw.
  - destruct (promises w !! i) as [[q f|]|] eqn:Hi; try done.
    intros j q' f' Hj. apply (promises_settle_pending i w) in Hj. by eapply Hw.
  - destruct (subscribe_cases provider chainId isActive)
      as [(p & cid & -> & -> & ->)|H]; [|by rewrite subscribe_inactive].
    rewrite subscribe_active. intros j q f; simpl.
    destruct (decide (j < length (promises w))) as [Hj|Hj].
    + rewrite lookup_app_l by done. apply Hw.
    + rewrite lookup_app_r by lia.
      destruct (j - length (promises w)) as [|k]; simpl; [|done].
      intros [= <- <-]; simpl. lia.
  - by destruct c.
  - done.
  - rewrite fire_run. by repeat case_match.
Qed.

(** A function object that is registered nowhere, has no call scheduled
    and whose initial fetch is not being fulfilled dispatches nothing. *)
Lemma dispatchedBy_step_quiet h i0 w s :
  (forall q, List.filter (owned h) (listeners w q) = []) ->
  fetch_only_at h i0 w ->
  List.filter (waits_for h) (timers w) = [] ->
  (forall n, s <> Fulfil i0 n) ->
  dispatchedBy h (step w s) = dispatchedBy h w.
Proof.
  intros Hnil Hfetch Htimers Hs.
  destruct s as [p n|i n|i e|provider chainId d isActive|c|p n|k].
  - rewrite dispatchedBy_new_block, Hnil. apply app_nil_r.
  - simpl. destruct (promises w !! i) as [[q f|]|] eqn:Hi; try done.
    rewrite call_calls, dispatchedBy_record_calls.
    rewrite actions_by_other; [apply app_nil_r|].
    intros Hf. apply (Hs n). f_equal. by eapply Hfetch.
  - simpl. repeat case_match; done.
  - simpl. destruct (subscribe_cases provider chainId isActive)
      as [(p & cid & -> & -> & ->)|H]; [done|by rewrite subscribe_inactive].
  - by destruct c.
  - done.
  - simpl. rewrite fire_run.
    destruct (timers w !! k) as [[f m|]|] eqn:Hk; [|done|done].
    rewrite dispatchedBy_record_calls, actions_by_other; [apply app_nil_r|].
    by eapply waits_for_lookup.
Qed.

(** While a function object is registered nowhere, no step schedules a
    call of it. *)
Lemma unscheduled_step h w s :
  (forall q, List.filter (owned h) (listeners w q) = []) ->
  List.filter (waits_for h) (timers w) = [] ->
  List.filter (waits_for h) (timers (step w s)) = [].
Proof.
  intros Hnil Htimers.
  destruct s as [p n|i n|i e|provider chainId d isActive|c|p n|k]; simpl.
  - rewrite emit_calls. simpl.
    by rewrite List.filter_app, Htimers, waits_for_replicate.
  - destruct (promises w !! i) as [[q f|]|]; try done. by rewrite call_calls.
  - by destruct (promises w !! i) as [[q f|]|].
  - destruct (subscribe_cases provider chainId isActive)
      as [(p & cid & -> & -> & ->)|H]; [done|by rewrite subscribe_inactive].
  - by destruct c.
  - by rewrite List.filter_app, Htimers, waits_for_schedule, Hnil.
  - rewrite fire_run. destruct (timers w !! k) as [[f m|]|]; try done.
    simpl. by apply waits_for_fired_nil.
Qed.

Lemma retired_step h i0 w s : retired h i0 w -> retired h i0 (step w s).
Proof.
  intros [Hlt Hnil Hfetch Htimers]. split.
  - pose proof (next_fn_step w s). lia.
  - by apply unowned_step.
  - by apply fetch_only_at_step.
  - by apply unscheduled_step.
Qed.

Lemma retired_run_quiet h i0 ss w :
  retired h i0 w ->
  Forall (fun s => forall n, s <> Fulfil i0 n) ss ->
  dispatchedBy h (run ss w) = dispatchedBy h w.
Proof.
  intros Hw Hss. revert w Hw.
  induction Hss as [|s ss Hs _ IH]; intros w Hw; [done|]. simpl.
  rewrite IH by by apply retired_step.
  destruct Hw. by eapply dispatchedBy_step_quiet.
Qed.

Lemma registered_step h p l w s :
  ~ cancels h s -> registered h p l w -> registered h p l (step w s).
Proof.
  intros Hs [Hlt Hown]. split.
  - pose proof (next_fn_step w s). lia.
  - intros q. by rewrite owned_step.
Qed.

Lemma registered_run h p l ss w :
  Forall (fun s => ~ cancels h s) ss -> registered h p l w -> registered h p l (run ss w).
Proof.
  intros Hss. revert w.
  induction Hss as [|s ss Hs _ IH]; intros w Hw; [done|]. simpl.
  by apply IH, registered_step.
Qed.

Lemma fetch_only_at_run h i0 ss w :
  h < next_fn w -> fetch_only_at h i0 w -> fetch_only_at h i0 (run ss w).
Proof.
  revert w. induction ss as [|s ss IH]; intros w Hlt Hw; [done|]. simpl.
  apply IH; [|by apply fetch_only_at_step].
  pose proof (next_fn_step w s). lia.
Qed.

Lemma run_snoc ss s w : run (ss ++ [s]) w = step (run ss w) s.
Proof. unfold run. by rewrite foldl_app. Qed.

Lemma run_app ss ss' w : run (ss ++ ss') w = run ss' (run ss w).
Proof. unfold run. by rewrite foldl_app. Qed.

Lemma listeners_step_external w s q : external s -> listeners (step w s) q = listeners w q.
Proof.
  destruct s as [p n|i n|i e|provider chainId d isActive|c|p n|k]; simpl; try done; intros _.
  - by rewrite emit_calls.
  - repeat case_match; try done. by rewrite call_calls.
  - repeat case_match; done.
  - rewrite fire_run. by repeat case_match.
Qed.

Lemma listeners_run_external ss w q :
  Forall external ss -> listeners (run ss w) q = listeners w q.
Proof.
  intros Hss. revert w.
  induction Hss as [|s ss Hs _ IH]; intros w; [done|]. simpl.
  by rewrite IH, listeners_step_external.
Qed.

Lemma registered_at_most h p l w : registered h p l w -> at_most_registered h p l w.
Proof.
  intros [Hlt Hown]. split; [done|]. intros q. rewrite Hown.
  case_decide; [by right|by left].
Qed.

Lemma remove_first_single t f l ls :
  tag l = t ->
  List.filter (owned (fn_id f)) ls = [l] ->
  remove_first t f ls = List.filter (fun l' => negb (owned (fn_id f) l')) ls.
Proof.
  intros Ht. induction ls as [|l' ls IH]; [done|]. simpl.
  unfold same_listener. fold (owned (fn_id f) l').
  destruct (owned (fn_id f) l') eqn:Ho; simpl.
  - intros [= -> Hrest]. rewrite Ht, String.eqb_refl. simpl.
    clear IH Ho. induction ls as [|l' ls IH]; [done|]. simpl in *.
    destruct (owned (fn_id f) l'); [done|]. simpl. f_equal. by apply IH.
  - rewrite andb_false_r. intros H. f_equal. by apply IH.
Qed.

Lemma remove_first_none t f ls :
  List.filter (owned (fn_id f)) ls = [] -> remove_first t f ls = ls.
Proof.
  induction ls as [|l' ls IH]; [done|]. simpl.
  unfold same_listener. fold (owned (fn_id f) l').
  destruct (owned (fn_id f) l'); [done|].
  rewrite andb_false_r. intros H. f_equal. by apply IH.
Qed.

Lemma filter_owned_negb h ls :
  List.filter (owned h) (List.filter (fun l => negb (owned h l)) ls) = [].
Proof.
  induction ls as [|l ls IH]; [done|]. simpl.
  destruct (owned h l) eqn:Ho; simpl; [done|]. by rewrite Ho.
Qed.

Lemma filter_negb_owned_id h ls :
  List.filter (owned h) ls = [] -> List.filter (fun l => negb (owned h l)) ls = ls.
Proof.
  induction ls as [|l ls IH]; [done|]. simpl.
  destruct (owned h l); [done|]. simpl. intros H. f_equal. by apply IH.
Qed.

Lemma at_most_registered_step h p l w s :
  tag l = "block" ->
  at_most_registered h p l w -> at_most_registered h p l (step w s).
Proof.
  intros Ht [Hlt Hown]. split.
  - pose proof (next_fn_step w s). lia.
  - intros q.
    assert (Decision (cancels h s)) as [Hc|Hc].
    { destruct s as [| | | |[? f|]| |]; simpl; apply _. }
    2: { rewrite owned_step by done. apply Hown. }
    destruct s as [| | | |[p' f|]| |]; try done. simpl in Hc. subst h. simpl.
    rewrite listeners_off. case_decide; [subst q|apply Hown].
    left. destruct (Hown p') as [Hnil|[_ Hone]].
    + by apply filter_owned_remove_first_nil.
    + rewrite (remove_first_single "block" f l) by done. apply filter_owned_negb.
Qed.

Lemma at_most_registered_run h p l ss w :
  tag l = "block" ->
  at_most_registered h p l w -> at_most_registered h p l (run ss w).
Proof.
  intros Ht. revert w.
  induction ss as [|s ss IH]; intros w Hw; [done|]. simpl.
  by apply IH, at_most_registered_step.
Qed.

(** Running the cleanup of [h] removes the entries of [h] and nothing else,
    and leaves [h] retired. *)
Lemma cleanup_listeners h body p l w q :
  tag l = "block" ->
  at_most_registered h p l w ->
  listeners (run_cleanup (OffBlock p (mkFn h body)) w) q =
  List.filter (fun l' => negb (owned h l')) (listeners w q).
Proof.
  intros Ht [_ Hown]. simpl. rewrite listeners_off.
  case_decide as Hq.
  - subst q. destruct (Hown p) as [Hnil|[_ Hone]].
    + rewrite (remove_first_none "block" (mkFn h body)) by done.
      by rewrite filter_negb_owned_id.
    + by rewrite (remove_first_single "block" (mkFn h body) l).
  - destruct (Hown q) as [Hnil|[? _]]; [|done].
    by rewrite filter_negb_owned_id.
Qed.

Lemma cleanup_unowned h body p l w :
  tag l = "block" ->
  at_most_registered h p l w ->
  forall q, List.filter (owned h)
                        (listeners (run_cleanup (OffBlock p (mkFn h body)) w) q) = [].
Proof.
  intros Ht Hw q. rewrite (cleanup_listeners h body p l) by done.
  apply filter_owned_negb.
Qed.

Lemma cleanup_retired h body p l i0 w :
  tag l = "block" ->
  at_most_registered h p l w -> fetch_only_at h i0 w ->
  List.filter (waits_for h) (timers w) = [] ->
  retired h i0 (run_cleanup (OffBlock p (mkFn h body)) w).
Proof.
  intros Ht Hw Hfetch Htimers. split.
  - by destruct Hw.
  - by apply (cleanup_unowned h body p l).
  - done.
  - done.
Qed.

(** *** Well-formedness is kept by every step *)

Lemma remove_first_elem_of t f ls l : l ∈ remove_first t f ls -> l ∈ ls.
Proof.
  induction ls as [|l' ls IH]; [done|]. simpl.
  destruct (same_listener t f l').
  - by right.
  - intros [->|Hl]%elem_of_cons; [by left|]. right. by apply IH.
Qed.

Lemma calls_of_callers b t n ls :
  (forall l, l ∈ ls -> fn_id (listener l) < b) ->
  Forall (fun c => caller c < b) (flat_map (calls_of t n) ls).
Proof.
  induction ls as [|l ls IH]; intros Hls; [done|]. simpl.
  apply Forall_app. split.
  - unfold calls_of. destruct (String.eqb (tag l) t); [|done].
    destruct (fn_body (listener l)); [|done].
    repeat constructor. simpl. apply Hls. by left.
  - apply IH. intros l' Hl'. apply Hls. by right.
Qed.

Lemma well_formed_record_calls cs w :
  well_formed w -> Forall (fun c => caller c < next_fn w) cs ->
  well_formed (record_calls cs w).
Proof.
  intros [Hl Hp Hd Ht] Hcs. split; [done|done| |done].
  simpl. by apply Forall_app.
Qed.

Lemma well_formed_settle i w : well_formed w -> well_formed (settle i w).
Proof.
  intros [Hl Hp Hd Ht]. split; [done| |done|done]. simpl.
  destruct (decide (i < length (promises w))).
  - by apply Forall_insert.
  - by rewrite list_insert_ge by lia.
Qed.

Lemma well_formed_set_timers ts w :
  well_formed w -> Forall (timer_fn_ok (next_fn w)) ts -> well_formed (set_timers ts w).
Proof. intros [Hl Hp Hd Ht] Hts. by split. Qed.

Lemma schedule_fn_ok b t n ls :
  (forall l, l ∈ ls -> fn_id (listener l) < b) ->
  Forall (timer_fn_ok b) (flat_map (schedule t n) ls).
Proof.
  induction ls as [|l ls IH]; intros Hls; [done|]. simpl.
  apply Forall_app. split.
  - unfold schedule. destruct (String.eqb (tag l) t); [|done].
    repeat constructor. simpl. apply Hls. by left.
  - apply IH. intros l' Hl'. apply Hls. by right.
Qed.

Lemma timer_calls_callers b tm :
  timer_fn_ok b tm -> Forall (fun c => caller c < b) (timer_calls tm).
Proof.
  destruct tm as [f n|]; [|done]. simpl. intros Hf.
  destruct (fn_body f); by repeat constructor.
Qed.

Lemma well_formed_step w s : well_formed w -> well_formed (step w s).
Proof.
  intros Hwf.
  destruct s as [p n|i n|i e|provider chainId d isActive|c|p n|k]; simpl.
  - rewrite emit_calls. apply well_formed_record_calls.
    + apply well_formed_set_timers; [done|]. apply Forall_app. split.
      * apply (wf_timers _ Hwf).
      * by apply Forall_replicate.
    + apply calls_of_callers, (wf_listeners _ Hwf).
  - destruct (promises w !! i) as [[q f|]|] eqn:Hi; try done.
    rewrite call_calls. apply well_formed_record_calls; [by apply well_formed_settle|].
    pose proof (Forall_lookup_1 _ _ _ _ (wf_promises _ Hwf) Hi) as Hf.
    by apply timer_calls_callers.
  - destruct (promises w !! i) as [[q f|]|] eqn:Hi; try done.
    by destruct (well_formed_settle i w Hwf).
  - destruct (subscribe_cases provider chainId isActive)
      as [(p & cid & -> & -> & ->)|H]; [|by rewrite subscribe_inactive].
    destruct Hwf as [Hl Hp Hd Ht]. split.
    + intros q l. rewrite listeners_subscribe. simpl.
      case_decide as Hq.
      * subst q. intros [Hin| ->%list_elem_of_singleton]%elem_of_app; simpl; [|lia].
        apply Hl in Hin. lia.
      * intros Hin. apply Hl in Hin. lia.
    + simpl. apply Forall_app. split; [|by repeat constructor; simpl; lia].
      eapply Forall_impl; [exact Hp|]. intros [q f|]; simpl; [lia|done].
    + simpl. eapply Forall_impl; [exact Hd|]. simpl. intros; lia.
    + simpl. eapply Forall_impl; [exact Ht|]. intros [f n|]; simpl; [lia|done].
  - destruct c as [p f|]; [|done]. destruct Hwf as [Hl Hp Hd Ht].
    split; [|done|done|done]. intros q l. simpl. rewrite listeners_off.
    case_decide; [subst q|apply Hl].
    intros Hin%remove_first_elem_of. by apply (Hl p).
  - apply well_formed_set_timers; [done|]. apply Forall_app. split.
    + apply (wf_timers _ Hwf).
    + apply schedule_fn_ok, (wf_listeners _ Hwf).
  - rewrite fire_run. destruct (timers w !! k) as [[f n|]|] eqn:Hk; [|done|done].
    pose proof (Forall_lookup_1 _ _ _ _ (wf_timers _ Hwf) Hk) as Hf.
    apply well_formed_record_calls; [|by apply timer_calls_callers].
    apply well_formed_set_timers; [done|].
    apply Forall_insert; [apply (wf_timers _ Hwf)|done].
Qed.

Lemma well_formed_run ss w : well_formed w -> well_formed (run ss w).
Proof.
  revert w. induction ss as [|s ss IH]; intros w Hwf; [done|]. simpl.
  by apply IH, well_formed_step.
Qed.

Lemma empty_world_wf : well_formed empty_world.
Proof.
  split; simpl; [|done|done|done].
  intros q l. unfold listeners; simpl. rewrite lookup_empty. simpl.
  by intros ?%elem_of_nil.
Qed.

(** *** A fresh subscription *)

Section Subscription.
Variables (p : nat) (cid : Z) (dispatch : nat) (w : World).

Let update := mkFn (next_fn w) (UpdateFn cid dispatch).
Let entry := mkListener "block" update.
Let w' := (subscribeToNewBlock (Some p) (Some cid) dispatch true w).2.

Lemma subscribe_listeners q :
  listeners w' q = if decide (p = q) then listeners w p ++ [entry] else listeners w q.
Proof. unfold w'. by rewrite listeners_subscribe. Qed.

Lemma subscribe_registered : well_formed w -> registered (next_fn w) p entry w'.
Proof.
  intros Hwf. split; [simpl; lia|]. intros q.
  rewrite subscribe_listeners. case_decide.
  - rewrite List.filter_app, owned_fresh by apply (wf_listeners _ Hwf).
    simpl. unfold owned; simpl. by rewrite Nat.eqb_refl.
  - apply owned_fresh, (wf_listeners _ Hwf).
Qed.

Lemma subscribe_fetch_only_at :
  well_formed w -> fetch_only_at (next_fn w) (length (promises w)) w'.
Proof.
  intros Hwf i q f. simpl.
  destruct (decide (i < length (promises w))) as [Hi|Hi].
  - rewrite lookup_app_l by done. intros Hp Hf.
    pose proof (Forall_lookup_1 _ _ _ _ (wf_promises _ Hwf) Hp) as Hok.
    simpl in Hok. lia.
  - rewrite lookup_app_r by lia.
    destruct (i - length (promises w)) as [|k] eqn:Hk; simpl; [|done].
    intros _ _. lia.
Qed.

Lemma subscribe_no_dispatch_yet : well_formed w -> dispatchedBy (next_fn w) w' = [].
Proof. intros Hwf. apply actions_by_fresh, (wf_dispatched _ Hwf). Qed.

(** While registered, [update] answers a block event of its provider by
    one dispatch, and does not answer the events of other providers. *)
Lemma registered_new_block W q n :
  registered (next_fn w) p entry W ->
  dispatchedBy (next_fn w) (step W (NewBlock q n)) =
  dispatchedBy (next_fn w) W ++
  (if decide (p = q) then [(dispatch, mkBlockNumberChanged cid n)] else []).
Proof.
  intros [_ Hown]. rewrite dispatchedBy_new_block, Hown.
  case_decide; [|done]. f_equal.
  change (flat_map ?f [entry]) with (f entry ++ []). rewrite app_nil_r.
  apply actions_by_update.
Qed.

Lemma subscribe_blocks ns :
  well_formed w ->
  dispatchedBy (next_fn w) (run (NewBlock p <$> ns) w') =
  (fun n => (dispatch, mkBlockNumberChanged cid n)) <$> ns.
Proof.
  intros Hwf. induction ns as [|n ns IH] using rev_ind.
  - by apply subscribe_no_dispatch_yet.
  - rewrite !fmap_app. simpl. rewrite run_snoc, registered_new_block, IH.
    + by rewrite decide_True.
    + apply registered_run; [|by apply subscribe_registered].
      apply Forall_fmap, Forall_true. intros n' Hc. exact Hc.
Qed.

End Subscription.

(** *** The claims about [subscribeToNewBlock] *)

Lemma snoc_ne {A} (l : list A) (x : A) : l ++ [x] <> l.
Proof. intros H. apply (f_equal length) in H. rewrite length_app in H. simpl in H. lia. Qed.

Lemma sample_world_wf : well_formed sample_world.
Proof.
  split; simpl; [|done|done|done].
  intros q l. unfold listeners; simpl.
  destruct (decide (q = 7)) as [->|Hq].
  - rewrite lookup_singleton_eq; simpl. intros ->%list_elem_of_singleton. simpl. lia.
  - rewrite lookup_singleton_ne by done. simpl. by intros ?%elem_of_nil.
Qed.

(** C1.  [subscribeToNewBlock] registers a listener exactly when the
    provider is defined, [chainId] is not undefined and [isActive] is true.
    In that case the listener is the new function [update], appended under
    the tag 'block' to the provider's table; calling it dispatches
    [{chainId, blockNumber}]; as long as it has not been unregistered, every
    block event of the provider makes it dispatch exactly that action once,
    so a series of block numbers is dispatched one for one.  Otherwise the
    call returns the world as it was together with a cleanup function that
    does nothing, so nothing that happens later differs from what would
    have happened without the call. *)
Theorem subscribeToNewBlock_registers_iff
        (provider : option nat) (chainId : option Z) (dispatch : nat)
        (isActive : bool) (w : World) :
  well_formed w ->
  let result := subscribeToNewBlock provider chainId dispatch isActive w in
  ((exists q, listeners result.2 q <> listeners w q) <->
   (is_Some provider /\ is_Some chainId /\ isActive = true))
  /\ (forall p cid, provider = Some p -> chainId = Some cid -> isActive = true ->
      let update := mkFn (next_fn w) (UpdateFn cid dispatch) in
      (forall q, listeners result.2 q =
                 if decide (p = q) then listeners w p ++ [mkListener "block" update]
                 else listeners w q)
      /\ (forall n W, call update n W =
                      dispatch_call (fn_id update) dispatch (mkBlockNumberChanged cid n) W)
      /\ (forall ss q n,
             Forall (fun s => ~ cancels (fn_id update) s) ss ->
             dispatchedBy (fn_id update) (step (run ss result.2) (NewBlock q n)) =
             dispatchedBy (fn_id update) (run ss result.2) ++
             (if decide (p = q) then [(dispatch, mkBlockNumberChanged cid n)] else []))
      /\ (forall ns, dispatchedBy (fn_id update) (run (NewBlock p <$> ns) result.2) =
                     (fun n => (dispatch, mkBlockNumberChanged cid n)) <$> ns))
  /\ (provider = None \/ chainId = None \/ isActive = false ->
      result = (Noop, w)
      /\ (forall W, run_cleanup result.1 W = W)
      /\ (forall ss, run ss result.2 = run ss w)).
Proof.
  intros Hwf result. split; [|split].
  - split.
    + intros [q Hq].
      destruct (subscribe_cases provider chainId isActive)
        as [(p & cid & -> & -> & ->)|H]; [done|].
      unfold result in Hq. by rewrite subscribe_inactive in Hq.
    + intros ([p ->] & [cid ->] & ->). exists p. unfold result.
      rewrite subscribe_listeners, decide_True by done. apply snoc_ne.
  - intros p cid -> -> -> update. repeat split.
    + apply subscribe_listeners.
    + intros ss q n Hss. apply registered_new_block.
      apply registered_run; [done|]. by apply subscribe_registered.
    + intros ns. by apply subscribe_blocks.
  - intros H. unfold result. by rewrite subscribe_inactive.
Qed.

Lemma subscribeToNewBlock_registers_iff_witness :
  well_formed sample_world /\
  dispatchedBy 1 (run (NewBlock 7 <$> [100; 101]%Z)
                      (subscribeToNewBlock (Some 7) (Some 1%Z) 3 true sample_world).2) =
  [(3, mkBlockNumberChanged 1 100); (3, mkBlockNumberChanged 1 101)].
Proof.
  split; [exact sample_world_wf|].
  destruct (subscribeToNewBlock_registers_iff (Some 7) (Some 1%Z) 3 true
              sample_world sample_world_wf) as (_ & Hactive & _).
  destruct (Hactive 7 1%Z eq_refl eq_refl eq_refl) as (_ & _ & _ & Hblocks).
  exact (Hblocks [100; 101]%Z).
Defined.

Lemma promise_step i pr w s :
  ~ settles i s -> promises w !! i = Some pr -> promises (step w s) !! i = Some pr.
Proof.
  intros Hs Hi.
  destruct s as [p n|j n|j e|provider chainId d isActive|c|p n|k]; simpl in *.
  - by rewrite emit_calls.
  - destruct (promises w !! j) as [[q f|]|] eqn:Hj; try done.
    rewrite call_calls; simpl. by rewrite list_lookup_insert_ne.
  - destruct (promises w !! j) as [[q f|]|] eqn:Hj; try done.
    simpl. by rewrite list_lookup_insert_ne.
  - destruct (subscribe_cases provider chainId isActive)
      as [(p & cid & -> & -> & ->)|H]; [|by rewrite subscribe_inactive].
    rewrite subscribe_active; simpl. rewrite lookup_app_l; [done|].
    by eapply lookup_lt_Some.
  - by destruct c.
  - done.
  - rewrite fire_run. by repeat case_match.
Qed.

Lemma promise_run i pr ss w :
  Forall (fun s => ~ settles i s) ss ->
  promises w !! i = Some pr -> promises (run ss w) !! i = Some pr.
Proof.
  intros Hss. revert w.
  induction Hss as [|s ss Hs _ IH]; intros w Hw; [done|]. simpl.
  by apply IH, promise_step.
Qed.

(** C10, as the code has it.  An active subscription starts exactly one
    [getBlockNumber] fetch, whose fulfilment handler calls the same [update]
    that was registered as the block listener; when the call returns
    nothing has been dispatched or logged yet.  Whenever the fetch is
    fulfilled with [n], whatever happened before, [update] dispatches
    [{chainId, blockNumber: n}].  Whenever it is rejected with [e], [e] goes
    to [console.error], nothing is dispatched, every listener table stays
    as it is, and the promise is settled for good: a later fulfilment of it
    does nothing. *)
Theorem initial_fetch_dispatches_through_update
        (p : nat) (cid : Z) (dispatch : nat) (w : World) :
  let result := subscribeToNewBlock (Some p) (Some cid) dispatch true w in
  let update := mkFn (next_fn w) (UpdateFn cid dispatch) in
  let i0 := length (promises w) in
  promises result.2 = promises w ++ [Pending p update]
  /\ listeners result.2 p = listeners w p ++ [mkListener "block" update]
  /\ dispatched result.2 = dispatched w
  /\ console result.2 = console w
  /\ (forall ss n,
         Forall (fun s => ~ settles i0 s) ss ->
         let W := run ss result.2 in
         let W' := step W (Fulfil i0 n) in
         dispatched W' =
         dispatched W ++ [mkDispatchCall (fn_id update) dispatch (mkBlockNumberChanged cid n)]
         /\ console W' = console W
         /\ (forall q, listeners W' q = listeners W q))
  /\ (forall ss e,
         Forall (fun s => ~ settles i0 s) ss ->
         let W := run ss result.2 in
         let W' := step W (Reject i0 e) in
         console W' = console W ++ [e]
         /\ dispatched W' = dispatched W
         /\ (forall q, listeners W' q = listeners W q)
         /\ (forall n, step W' (Fulfil i0 n) = W')).
Proof.
  intros result update i0.
  assert (forall ss, Forall (fun s => ~ settles i0 s) ss ->
                     promises (run ss result.2) !! i0 = Some (Pending p update)) as Hpending.
  { intros ss Hss. apply promise_run; [done|]. simpl.
    by rewrite list_lookup_middle. }
  split; [done|]. split.
  { unfold result. by rewrite subscribe_listeners, decide_True. }
  split; [done|]. split; [done|]. split.
  - intros ss n Hss W W'. unfold W'. simpl.
    unfold W. rewrite (Hpending ss) by done. by rewrite call_calls.
  - intros ss e Hss W W'.
    assert (W' = console_error e (settle i0 W)) as ->.
    { unfold W'. simpl. unfold W. by rewrite (Hpending ss). }
    repeat split; try done.
    intros n. simpl.
    rewrite list_lookup_insert_eq; [done|].
    eapply lookup_lt_Some. by apply (Hpending ss).
Qed.

(** C10 as it is worded asks for more: that the fetched number is
    dispatched immediately, before any new block event.  On provider 0 in
    the empty world nothing has been dispatched when [subscribeToNewBlock]
    returns, and if block 7 is announced before the fetch is fulfilled with
    5, the first action dispatched is the one for block 7. *)
Lemma initial_fetch_not_before_block_events :
  let w' := (subscribeToNewBlock (Some 0) (Some 1%Z) 0 true empty_world).2 in
  dispatched w' = []
  /\ ~ (forall ss n,
           Fulfil 0 n ∈ ss ->
           head (dispatchedBy 0 (run ss w')) = Some (0, mkBlockNumberChanged 1 n)).
Proof.
  split; [done|]. intros H.
  specialize (H [NewBlock 0 7%Z; Fulfil 0 5%Z] 5%Z).
  discriminate H. right. left.
Qed.

Lemma initial_fetch_dispatches_through_update_witness :
  let w' := (subscribeToNewBlock (Some 7) (Some 1%Z) 3 true sample_world).2 in
  Forall (fun s => ~ settles 0 s) [NewBlock 7 100%Z]
  /\ dispatched (run [NewBlock 7 100%Z; Fulfil 0 99%Z] w') =
     [mkDispatchCall 1 3 (mkBlockNumberChanged 1 100);
      mkDispatchCall 1 3 (mkBlockNumberChanged 1 99)]
  /\ console (run [NewBlock 7 100%Z; Reject 0 "network down"] w') = ["network down"].
Proof.
  intros w'.
  assert (Forall (fun s => ~ settles 0 s) [NewBlock 7 100%Z]) as Hss.
  { repeat constructor. simpl. tauto. }
  destruct (initial_fetch_dispatches_through_update 7 1%Z 3 sample_world)
    as (_ & _ & _ & _ & Hfulfil & Hreject).
  split; [exact Hss|]. split.
  - exact (proj1 (Hfulfil [NewBlock 7 100%Z] 99%Z Hss)).
  - exact (proj1 (Hreject [NewBlock 7 100%Z] "network down" Hss)).
Defined.

(** *** A subscription on the sample world, step by step *)

Example subscribe_sample_world :
  let result := subscribeToNewBlock (Some 7) (Some 1%Z) 3 true sample_world in
  result.1 = OffBlock 7 (mkFn 1 (UpdateFn 1 3))
  /\ listeners result.2 7 =
     [mkListener "block" (mkFn 0 OpaqueFn); mkListener "block" (mkFn 1 (UpdateFn 1 3))]
  /\ promises result.2 = [Pending 7 (mkFn 1 (UpdateFn 1 3))]
  /\ dispatched result.2 = []
  /\ next_fn result.2 = 2.
Proof. repeat split. Qed.

Example unsubscribed_sample_world :
  let result := subscribeToNewBlock (Some 7) (Some 1%Z) 3 true sample_world in
  let w := run [NewBlock 7 100%Z; Unsubscribe result.1; NewBlock 7 101%Z; Fulfil 0 99%Z]
               result.2 in
  listeners w 7 = [mkListener "block" (mkFn 0 OpaqueFn)]
  /\ dispatchedBy 1 w = [(3, mkBlockNumberChanged 1 100); (3, mkBlockNumberChanged 1 99)].
Proof. repeat split. Qed.

Example subscribe_inactive_sample_world :
  subscribeToNewBlock None (Some 1%Z) 3 true sample_world = (Noop, sample_world)
  /\ subscribeToNewBlock (Some 7) None 3 true sample_world = (Noop, sample_world)
  /\ subscribeToNewBlock (Some 7) (Some 0%Z) 3 false sample_world = (Noop, sample_world).
Proof. repeat split. Qed.

(** ** The cleanup function and what is left of a subscription *)

(** *** What is left of a subscription, step by step *)

Lemma promise_lookup_step i pr w s :
  promises w !! i = Some pr ->
  promises (step w s) !! i = Some pr \/ promises (step w s) !! i = Some Settled.
Proof.
  intros Hi. pose proof (lookup_lt_Some _ _ _ Hi) as Hlt.
  assert (forall j, promises (settle j w) !! i = Some pr \/
                    promises (settle j w) !! i = Some Settled) as Hsettle.
  { intros j. simpl. destruct (decide (j = i)) as [->|Hne].
    - right. by apply list_lookup_insert_eq.
    - left. by rewrite list_lookup_insert_ne. }
  destruct s as [q n|j n|j e|provider chainId d isActive|c|q n|k]; simpl.
  - left. by rewrite emit_calls.
  - destruct (promises w !! j) as [[q f|]|] eqn:Hj; try by left.
    rewrite call_calls. apply Hsettle.
  - destruct (promises w !! j) as [[q f|]|] eqn:Hj; try by left.
    apply Hsettle.
  - left. destruct (subscribe_cases provider chainId isActive)
      as [(q & cid & -> & -> & ->)|H]; [|by rewrite subscribe_inactive].
    rewrite subscribe_active; simpl. by rewrite lookup_app_l.
  - left. by destruct c.
  - by left.
  - left. rewrite fire_run. by repeat case_match.
Qed.

Lemma promise_settled_step i w s :
  promises w !! i = Some Settled -> promises (step w s) !! i = Some Settled.
Proof. intros Hi. by destruct (promise_lookup_step i Settled w s Hi). Qed.

Lemma pending_at_step i w s :
  i < length (promises w) -> pending_at i (step w s) <= pending_at i w.
Proof.
  intros Hlt. unfold pending_at.
  destruct (promises w !! i) as [pr|] eqn:Hi.
  2: { apply lookup_ge_None in Hi. lia. }
  destruct (promise_lookup_step i pr w s Hi) as [-> | ->]; [done|].
  destruct pr; lia.
Qed.

(** The timers of a step: those there were, some of them fired, and the
    ones the step sets. *)
Lemma scheduled_in t n f m ls :
  Scheduled f m ∈ flat_map (schedule t n) ls -> exists l, l ∈ ls /\ listener l = f.
Proof.
  induction ls as [|l ls IH]; simpl; [by intros ?%elem_of_nil|].
  intros [Hin|Hin]%elem_of_app.
  - exists l. split; [by left|]. unfold schedule in Hin.
    destruct (String.eqb (tag l) t); [|by apply elem_of_nil in Hin].
    apply list_elem_of_singleton in Hin. congruence.
  - destruct (IH Hin) as (l' & Hl' & Hf). exists l'. split; [by right|done].
Qed.

Lemma owned_elem_of h l ls :
  l ∈ ls -> fn_id (listener l) = h -> l ∈ List.filter (owned h) ls.
Proof.
  intros Hin Hl. apply list_elem_of_In, List.filter_In. split.
  - by apply list_elem_of_In.
  - unfold owned. by apply Nat.eqb_eq.
Qed.

Lemma timer_lookup_step w s k f n :
  timers (step w s) !! k = Some (Scheduled f n) ->
  timers w !! k = Some (Scheduled f n)
  \/ exists q l, s = BlockEmitted q n /\ l ∈ listeners w q /\ listener l = f.
Proof.
  assert (forall k', <[k' := Fired]> (timers w) !! k = Some (Scheduled f n) ->
                     timers w !! k = Some (Scheduled f n)) as Hfired.
  { intros k'. destruct (decide (k' = k)) as [->|Hne].
    - destruct (decide (k < length (timers w))).
      + by rewrite list_lookup_insert_eq.
      + by rewrite list_insert_ge by lia.
    - by rewrite list_lookup_insert_ne. }
  destruct s as [q m|j m|j e|provider chainId d isActive|c|q m|k']; simpl; intros Hk.
  - rewrite emit_calls in Hk. simpl in Hk.
    apply lookup_app_Some in Hk as [Hk|[_ Hk]]; [by left|].
    by apply lookup_replicate in Hk as [? _].
  - left. destruct (promises w !! j) as [[q f'|]|]; try done.
    by rewrite call_calls in Hk.
  - left. by destruct (promises w !! j) as [[q f'|]|].
  - left. destruct (subscribe_cases provider chainId isActive)
      as [(q & cid & -> & -> & ->)|Hc]; [done|by rewrite subscribe_inactive in Hk].
  - left. by destruct c.
  - apply lookup_app_Some in Hk as [Hk|[_ Hk]]; [by left|]. right.
    apply list_elem_of_lookup_2 in Hk.
    assert (m = n) as ->.
    { clear -Hk. induction (listeners w q) as [|l ls IH]; simpl in Hk;
        [by apply elem_of_nil in Hk|].
      apply elem_of_app in Hk as [Hk|Hk]; [|by apply IH].
      unfold schedule in Hk. destruct (String.eqb (tag l) "block");
        [|by apply elem_of_nil in Hk].
      apply list_elem_of_singleton in Hk. congruence. }
    destruct (scheduled_in _ _ _ _ _ Hk) as (l & Hl & Hf). by exists q, l.
  - left. rewrite fire_run in Hk.
    destruct (timers w !! k') as [[f' m|]|]; try done. simpl in Hk. by apply (Hfired k').
Qed.

Lemma tracked_step h p i0 update w s :
  tracked h p i0 update w -> tracked h p i0 update (step w s).
Proof.
  intros [Hentry Hfetch Hpromise Htimers]. split.
  - by apply at_most_registered_step.
  - apply fetch_only_at_step; [by destruct Hentry|done].
  - destruct Hpromise as [Hp|Hp].
    + apply (promise_lookup_step _ _ _ s) in Hp. tauto.
    + right. by apply promise_settled_step.
  - intros k f n Hk Hf.
    destruct (timer_lookup_step w s k f n Hk) as [Hold|(q & l & _ & Hl & <-)];
      [by eapply Htimers|].
    apply (owned_elem_of h) in Hl; [|done].
    destruct Hentry as [_ Hown]. destruct (Hown q) as [Hnil|[_ Hone]].
    + rewrite Hnil in Hl. by apply elem_of_nil in Hl.
    + rewrite Hone in Hl. by apply list_elem_of_singleton in Hl as ->.
Qed.

Lemma tracked_run h p i0 update ss w :
  tracked h p i0 update w -> tracked h p i0 update (run ss w).
Proof.
  revert w. induction ss as [|s ss IH]; intros w Hw; [done|]. simpl.
  by apply IH, tracked_step.
Qed.

Lemma waits_for_fresh h ts :
  Forall (timer_fn_ok h) ts -> List.filter (waits_for h) ts = [].
Proof.
  induction 1 as [|tm ts Htm _ IH]; [done|]. simpl.
  destruct tm as [f n|]; simpl in *; [|done].
  destruct (Nat.eqb_spec (fn_id f) h); [lia|done].
Qed.

Lemma subscribe_tracked p cid dispatch w :
  well_formed w ->
  tracked (next_fn w) p (length (promises w)) (mkFn (next_fn w) (UpdateFn cid dispatch))
          (subscribeToNewBlock (Some p) (Some cid) dispatch true w).2.
Proof.
  intros Hwf. split.
  - by apply registered_at_most, subscribe_registered.
  - by apply subscribe_fetch_only_at.
  - left. simpl. by rewrite list_lookup_middle.
  - intros k f n Hk Hf. simpl in Hk.
    pose proof (waits_for_fresh _ _ (wf_timers _ Hwf)) as Hnil.
    by destruct (waits_for_lookup _ _ _ _ _ Hnil Hk).
Qed.

Lemma subscribe_unscheduled p cid dispatch w :
  well_formed w ->
  scheduled_for (next_fn w) (subscribeToNewBlock (Some p) (Some cid) dispatch true w).2 = 0.
Proof.
  intros Hwf. unfold scheduled_for. simpl.
  by rewrite (waits_for_fresh _ _ (wf_timers _ Hwf)).
Qed.

(** One step makes [update] dispatch at most one action: the block number
    of a block event of its provider whose timers fire at once, while its
    entry is there; the block number a timer was set with for it; or the
    number its pending initial fetch is fulfilled with. *)
Lemma tracked_dispatch_step h p i0 cid d w s :
  let update := mkFn h (UpdateFn cid d) in
  tracked h p i0 update w ->
  exists extra,
    dispatchedBy h (step w s) = dispatchedBy h w ++ extra
    /\ (extra = []
        \/ (exists n, s = NewBlock p n
                      /\ List.filter (owned h) (listeners w p) = [mkListener "block" update]
                      /\ extra = [(d, mkBlockNumberChanged cid n)])
        \/ (exists n, s = Fulfil i0 n
                      /\ promises w !! i0 = Some (Pending p update)
                      /\ extra = [(d, mkBlockNumberChanged cid n)])
        \/ (exists k n, s = TimerFires k
                        /\ timers w !! k = Some (Scheduled update n)
                        /\ extra = [(d, mkBlockNumberChanged cid n)])).
Proof.
  intros update [[_ Hown] Hfetch Hpromise Htimers].
  assert (forall W, dispatchedBy h W = dispatchedBy h W ++ []) as Hnil
      by (intros; by rewrite app_nil_r).
  assert (actions_by h (timer_calls (Scheduled update 0)) <> [] /\
          forall n, actions_by h (timer_calls (Scheduled update n)) =
                    [(d, mkBlockNumberChanged cid n)]) as [_ Hupdate].
  { unfold actions_by, made_by; simpl. by rewrite Nat.eqb_refl. }
  destruct s as [q n|i n|i e|provider chainId d' isActive|c|q n|k].
  - rewrite dispatchedBy_new_block. eexists. split; [done|].
    destruct (Hown q) as [-> |[<- Hone]]; [by left|].
    right. left. exists n. rewrite Hone. repeat split.
    change (flat_map ?f [?x]) with (f x ++ []). rewrite app_nil_r.
    apply actions_by_update.
  - simpl. destruct (promises w !! i) as [[q f|]|] eqn:Hi;
      try (exists []; split; [apply Hnil|by left]).
    rewrite call_calls, dispatchedBy_record_calls.
    eexists. split; [done|].
    destruct (decide (fn_id f = h)) as [Hf|Hf].
    + assert (i = i0) as -> by by eapply Hfetch.
      destruct Hpromise as [Hp|Hp]; [|congruence].
      assert (q = p /\ f = update) as [-> ->] by (split; congruence).
      right. right. left. exists n. by repeat split.
    + left. by apply actions_by_other.
  - exists []. split; [|by left]. simpl.
    destruct (promises w !! i) as [[q f|]|];
      unfold dispatchedBy; simpl; by rewrite app_nil_r.
  - exists []. split; [|by left]. simpl.
    destruct (subscribe_cases provider chainId isActive)
      as [(q & cid' & -> & -> & ->)|H].
    + unfold dispatchedBy; simpl; by rewrite app_nil_r.
    + rewrite subscribe_inactive by done. apply Hnil.
  - exists []. split; [|by left].
    destruct c; unfold dispatchedBy; simpl; by rewrite app_nil_r.
  - exists []. split; [|by left]. unfold dispatchedBy; simpl; by rewrite app_nil_r.
  - simpl. rewrite fire_run.
    destruct (timers w !! k) as [[f n|]|] eqn:Hk;
      try (exists []; split; [apply Hnil|by left]).
    rewrite dispatchedBy_record_calls. eexists. split; [done|].
    destruct (decide (fn_id f = h)) as [Hf|Hf].
    + assert (f = update) as -> by by eapply Htimers.
      do 3 right. exists k, n. by repeat split.
    + left. by apply actions_by_other.
Qed.

Lemma retired_run h i0 ss w : retired h i0 w -> retired h i0 (run ss w).
Proof.
  revert w. induction ss as [|s ss IH]; intros w Hw; [done|]. simpl.
  by apply IH, retired_step.
Qed.

Lemma unowned_run h ss w :
  h < next_fn w ->
  (forall q, List.filter (owned h) (listeners w q) = []) ->
  forall q, List.filter (owned h) (listeners (run ss w) q) = [].
Proof.
  revert w. induction ss as [|s ss IH]; intros w Hlt Hnil; [done|]. simpl.
  apply IH; [|by apply unowned_step].
  pose proof (next_fn_step w s). lia.
Qed.

Lemma fulfil_settles i n q f w :
  promises w !! i = Some (Pending q f) ->
  promises (step w (Fulfil i n)) !! i = Some Settled.
Proof.
  intros Hi. simpl. rewrite Hi, call_calls. simpl.
  apply list_lookup_insert_eq. by eapply lookup_lt_Some.
Qed.

Lemma dispatchedBy_fulfil h cid d q i n w :
  promises w !! i = Some (Pending q (mkFn h (UpdateFn cid d))) ->
  dispatchedBy h (step w (Fulfil i n)) =
  dispatchedBy h w ++ [(d, mkBlockNumberChanged cid n)].
Proof.
  intros Hi. simpl. rewrite Hi, call_calls, dispatchedBy_record_calls. f_equal.
  unfold actions_by, made_by; simpl. by rewrite Nat.eqb_refl.
Qed.

(** *** Counting dispatches, scheduled calls and the pending fetch *)

Lemma blocks_of_cons p s ss :
  blocks_of p (s :: ss) = (if is_block_of p s then 1 else 0) + blocks_of p ss.
Proof. unfold blocks_of. simpl. by destruct (is_block_of p s). Qed.

(** A step adds to what [update] has dispatched, has scheduled and has
    pending only as a block event of its provider, and then as many as it
    has entries in the provider's table. *)
Lemma tracked_account h p i0 cid d w s :
  tracked h p i0 (mkFn h (UpdateFn cid d)) w ->
  length (dispatchedBy h (step w s)) + pending_at i0 (step w s)
  + scheduled_for h (step w s) <=
  length (dispatchedBy h w) + pending_at i0 w + scheduled_for h w
  + (if is_block_of p s then length (List.filter (owned h) (listeners w p)) else 0).
Proof.
  intros Hw.
  assert (i0 < length (promises w)) as Hlt.
  { destruct Hw as [_ _ [Hp|Hp] _]; by eapply lookup_lt_Some. }
  pose proof (pending_at_step i0 w s Hlt) as Hpend.
  destruct (tracked_dispatch_step h p i0 cid d w s Hw) as (extra & Hstep & Hcases).
  rewrite Hstep, length_app. clear Hstep.
  destruct Hw as [[_ Hown] _ _ Htimers].
  destruct s as [q n|i n|i e|provider chainId d' isActive|c|q n|k].
  - assert (scheduled_for h (step w (NewBlock q n)) = scheduled_for h w) as ->.
    { unfold scheduled_for. simpl. rewrite emit_calls. simpl.
      by rewrite List.filter_app, waits_for_replicate, app_nil_r. }
    destruct Hcases as [-> |[(m & [= -> ->] & -> & ->)|[(m & [=] & _)|(k & m & [=] & _)]]];
      simpl is_block_of; cbn [length].
    + destruct (Nat.eqb q p); lia.
    + rewrite Nat.eqb_refl. lia.
  - assert (scheduled_for h (step w (Fulfil i n)) = scheduled_for h w) as ->.
    { unfold scheduled_for. simpl.
      destruct (promises w !! i) as [[q f|]|]; try done. by rewrite call_calls. }
    destruct Hcases as [-> |[(m & [=] & _)|[(m & [= -> ->] & Hp & ->)|(k & m & [=] & _)]]];
      simpl is_block_of; cbn [length]; [lia|].
    assert (pending_at i0 w = 1) as Hone by (unfold pending_at; by rewrite Hp).
    assert (pending_at i0 (step w (Fulfil i0 m)) = 0) as Hzero.
    { unfold pending_at. by rewrite (fulfil_settles i0 m p _ w Hp). }
    lia.
  - assert (scheduled_for h (step w (Reject i e)) = scheduled_for h w) as ->.
    { unfold scheduled_for. simpl. by destruct (promises w !! i) as [[q f|]|]. }
    destruct Hcases as [-> |[(m & [=] & _)|[(m & [=] & _)|(k & m & [=] & _)]]].
    simpl is_block_of; cbn [length]. lia.
  - assert (scheduled_for h (step w (Subscribe provider chainId d' isActive)) =
            scheduled_for h w) as ->.
    { unfold scheduled_for. simpl.
      destruct (subscribe_cases provider chainId isActive)
        as [(q & cid' & -> & -> & ->)|H]; [done|by rewrite subscribe_inactive]. }
    destruct Hcases as [-> |[(m & [=] & _)|[(m & [=] & _)|(k & m & [=] & _)]]].
    simpl is_block_of; cbn [length]. lia.
  - assert (scheduled_for h (step w (Unsubscribe c)) = scheduled_for h w) as ->
        by by destruct c.
    destruct Hcases as [-> |[(m & [=] & _)|[(m & [=] & _)|(k & m & [=] & _)]]].
    simpl is_block_of; cbn [length]. lia.
  - assert (scheduled_for h (step w (BlockEmitted q n)) =
            scheduled_for h w +
            length (flat_map (schedule "block" n) (List.filter (owned h) (listeners w q))))
      as ->.
    { unfold scheduled_for. simpl.
      by rewrite List.filter_app, length_app, waits_for_schedule. }
    destruct Hcases as [-> |[(m & [=] & _)|[(m & [=] & _)|(k & m & [=] & _)]]].
    simpl is_block_of; cbn [length].
    revert Hpend. generalize (pending_at i0 (step w (BlockEmitted q n))). intros x Hx.
    destruct (Hown q) as [-> |[<- ->]]; simpl.
    + destruct (Nat.eqb q p); lia.
    + rewrite Nat.eqb_refl. simpl. lia.
  - simpl is_block_of. cbv iota.
    assert (scheduled_for h (step w (TimerFires k)) + length extra <= scheduled_for h w);
      [|lia].
    unfold scheduled_for. simpl. rewrite fire_run.
    destruct Hcases as [-> |[(m & [=] & _)|[(m & [=] & _)|(k' & m & [= <-] & Hk & ->)]]].
    + destruct (timers w !! k) as [[f m|]|] eqn:Hk; simpl; try lia.
      pose proof (waits_for_fired h (timers w) k _ Hk). lia.
    + rewrite Hk. simpl.
      pose proof (waits_for_fired h (timers w) k _ Hk) as Hfired. simpl in Hfired.
      rewrite Nat.eqb_refl in Hfired. lia.
Qed.

Lemma tracked_run_bound h p i0 cid d ss w :
  tracked h p i0 (mkFn h (UpdateFn cid d)) w ->
  length (dispatchedBy h (run ss w)) + pending_at i0 (run ss w)
  + scheduled_for h (run ss w) <=
  length (dispatchedBy h w) + pending_at i0 w + scheduled_for h w + blocks_of p ss.
Proof.
  revert w. induction ss as [|s ss IH]; intros w Hw; [unfold blocks_of; simpl; lia|].
  change (run (s :: ss) w) with (run ss (step w s)). rewrite blocks_of_cons.
  specialize (IH (step w s) (tracked_step _ _ _ _ _ s Hw)).
  pose proof (tracked_account h p i0 cid d w s Hw) as Hstep.
  assert (length (List.filter (owned h) (listeners w p)) <= 1) as Hone.
  { destruct Hw as [[_ Hown] _ _ _]. by destruct (Hown p) as [-> |[_ ->]]; simpl; lia. }
  destruct (is_block_of p s); lia.
Qed.

(** Once [update] has no entry left, no step adds to what it has
    dispatched, has scheduled and has pending. *)
Lemma unowned_run_bound h p i0 cid d ss w :
  tracked h p i0 (mkFn h (UpdateFn cid d)) w ->
  (forall q, List.filter (owned h) (listeners w q) = []) ->
  length (dispatchedBy h (run ss w)) + pending_at i0 (run ss w)
  + scheduled_for h (run ss w) <=
  length (dispatchedBy h w) + pending_at i0 w + scheduled_for h w.
Proof.
  revert w. induction ss as [|s ss IH]; intros w Hw Hnil; [simpl; lia|].
  change (run (s :: ss) w) with (run ss (step w s)).
  assert (h < next_fn w) as Hlt by by destruct Hw as [[? _] _ _ _].
  specialize (IH (step w s) (tracked_step _ _ _ _ _ s Hw) (unowned_step h w s Hlt Hnil)).
  pose proof (tracked_account h p i0 cid d w s Hw) as Hstep.
  rewrite Hnil in Hstep. simpl in Hstep.
  destruct (is_block_of p s); lia.
Qed.

(** With no entry left, no call scheduled and the initial fetch settled,
    [update] is never called again. *)
Lemma spent_run h p i0 cid d ss w :
  tracked h p i0 (mkFn h (UpdateFn cid d)) w ->
  (forall q, List.filter (owned h) (listeners w q) = []) ->
  List.filter (waits_for h) (timers w) = [] ->
  promises w !! i0 = Some Settled ->
  dispatchedBy h (run ss w) = dispatchedBy h w.
Proof.
  revert w. induction ss as [|s ss IH]; intros w Hw Hnil Htimers Hset; [done|]. simpl.
  rewrite IH.
  - destruct (tracked_dispatch_step h p i0 cid d w s Hw)
      as (extra & -> & [-> |[(n & _ & Hone & _)|[(n & _ & Hpend & _)|(k & n & _ & Hk & _)]]]).
    + apply app_nil_r.
    + by rewrite Hnil in Hone.
    + congruence.
    + by destruct (waits_for_lookup _ _ _ _ _ Htimers Hk).
  - by apply tracked_step.
  - apply unowned_step; [|done]. by destruct Hw as [[? _] _ _ _].
  - by apply unscheduled_step.
  - by apply promise_settled_step.
Qed.

(** With no entry left and no call scheduled, [update] is called at most
    once more: by the fulfilment of the initial fetch. *)
Lemma unowned_run_dispatches h p i0 cid d ss w :
  tracked h p i0 (mkFn h (UpdateFn cid d)) w ->
  (forall q, List.filter (owned h) (listeners w q) = []) ->
  List.filter (waits_for h) (timers w) = [] ->
  dispatchedBy h (run ss w) = dispatchedBy h w
  \/ exists n, Fulfil i0 n ∈ ss
               /\ dispatchedBy h (run ss w) =
                  dispatchedBy h w ++ [(d, mkBlockNumberChanged cid n)].
Proof.
  revert w. induction ss as [|s ss IH]; intros w Hw Hnil Htimers; [by left|]. simpl.
  assert (h < next_fn w) as Hlt by by destruct Hw as [[? _] _ _ _].
  destruct (tracked_dispatch_step h p i0 cid d w s Hw)
    as (extra & Hstep &
        [-> |[(n & _ & Hone & _)|[(n & -> & Hpend & ->)|(k & n & _ & Hk & _)]]]).
  - rewrite app_nil_r in Hstep.
    destruct (IH (step w s)) as [Hsame|(n & Hn & Hmore)];
      [by apply tracked_step|by apply unowned_step|by apply unscheduled_step| |].
    + left. congruence.
    + right. exists n. split; [by right|]. congruence.
  - by rewrite Hnil in Hone.
  - right. exists n. split; [by left|].
    rewrite (spent_run h p i0 cid d); [done|by apply tracked_step| | |].
    + by apply unowned_step.
    + by apply unscheduled_step.
    + by eapply fulfil_settles.
  - by destruct (waits_for_lookup _ _ _ _ _ Htimers Hk).
Qed.

Lemma scheduled_for_nil h w :
  scheduled_for h w = 0 -> List.filter (waits_for h) (timers w) = [].
Proof. unfold scheduled_for. by intros ?%nil_length_inv. Qed.

(** *** The cleanup function *)

Lemma cleanup_tracked h p i0 cid d ss ss' w :
  let update := mkFn h (UpdateFn cid d) in
  tracked h p i0 update w ->
  let W := run ss' (run_cleanup (OffBlock p update) (run ss w)) in
  tracked h p i0 update W
  /\ forall q, List.filter (owned h) (listeners W q) = [].
Proof.
  intros update Hw W.
  assert (tracked h p i0 update (run ss w)) as H0 by by apply tracked_run.
  assert (tracked h p i0 update (run_cleanup (OffBlock p update) (run ss w))) as H1
      by apply (tracked_step _ _ _ _ _ (Unsubscribe (OffBlock p update)) H0).
  split; [by apply tracked_run|].
  apply unowned_run; [by destruct H1 as [[? _] _ _ _]|].
  apply (cleanup_unowned h (UpdateFn cid d) p (mkListener "block" update)); [done|].
  by destruct H0.
Qed.

(** C2.  For an active subscription the returned cleanup function is
    [() => provider.off('block', update)] for the very [update] that was
    registered.  Running it, at once or after any block events and promise
    settlements, gives every provider the listener table it had before the
    subscription.  Whatever else happened in between (other subscriptions,
    other cleanups), it removes the entries of [update] and keeps every
    other entry in place, and until then [update] has exactly the one entry
    it was registered with.  A block event emitted after the cleanup makes
    [update] dispatch nothing and schedules no call of it, and from the
    cleanup on the dispatches of [update], its scheduled calls and its
    pending fetch together never grow in number: with no call of [update]
    scheduled at the cleanup, nothing except the fulfilment of the
    subscription's own initial fetch makes it dispatch again.  But [off]
    does not take back a call the provider has scheduled already: when the
    timer of a block emitted before the cleanup fires after it, [update]
    dispatches that block. *)
Theorem cleanup_removes_registered_handler
        (p : nat) (cid : Z) (dispatch : nat) (w : World) :
  well_formed w ->
  let result := subscribeToNewBlock (Some p) (Some cid) dispatch true w in
  let update := mkFn (next_fn w) (UpdateFn cid dispatch) in
  let i0 := length (promises w) in
  result.1 = OffBlock p update
  /\ (forall ss q, Forall external ss ->
                   listeners (run_cleanup result.1 (run ss result.2)) q = listeners w q)
  /\ (forall ss q,
         listeners (run_cleanup result.1 (run ss result.2)) q =
         List.filter (fun l => negb (owned (fn_id update) l)) (listeners (run ss result.2) q))
  /\ (forall ss q,
         Forall (fun s => ~ cancels (fn_id update) s) ss ->
         List.filter (owned (fn_id update)) (listeners (run ss result.2) q) =
         if decide (p = q) then [mkListener "block" update] else [])
  /\ (forall ss ss' q n,
         let W := run ss' (run_cleanup result.1 (run ss result.2)) in
         dispatchedBy (fn_id update) (step W (NewBlock q n)) = dispatchedBy (fn_id update) W
         /\ dispatchedBy (fn_id update) (step W (BlockEmitted q n)) =
            dispatchedBy (fn_id update) W
         /\ List.filter (waits_for (fn_id update)) (timers (step W (BlockEmitted q n))) =
            List.filter (waits_for (fn_id update)) (timers W))
  /\ (forall ss ss',
         let W0 := run_cleanup result.1 (run ss result.2) in
         let W1 := run ss' W0 in
         length (dispatchedBy (fn_id update) W1) + pending_at i0 W1
         + scheduled_for (fn_id update) W1 <=
         length (dispatchedBy (fn_id update) W0) + pending_at i0 W0
         + scheduled_for (fn_id update) W0)
  /\ (forall ss ss',
         scheduled_for (fn_id update) (run ss result.2) = 0 ->
         Forall (fun s => forall n, s <> Fulfil i0 n) ss' ->
         dispatchedBy (fn_id update) (run ss' (run_cleanup result.1 (run ss result.2))) =
         dispatchedBy (fn_id update) (run ss result.2))
  /\ (forall ss ss' k n,
         let W := run ss' (run_cleanup result.1 (run ss result.2)) in
         timers W !! k = Some (Scheduled update n) ->
         dispatchedBy (fn_id update) (step W (TimerFires k)) =
         dispatchedBy (fn_id update) W ++ [(dispatch, mkBlockNumberChanged cid n)]).
Proof.
  intros Hwf result update i0.
  pose proof (subscribe_registered p cid dispatch w Hwf) as Hreg.
  pose proof (subscribe_tracked p cid dispatch w Hwf) as Htracked.
  assert (forall ss, at_most_registered (next_fn w) p (mkListener "block" update)
                                        (run ss result.2)) as Hamr.
  { intros ss. apply at_most_registered_run; [done|]. by apply registered_at_most. }
  assert (forall ss q,
             listeners (run_cleanup result.1 (run ss result.2)) q =
             List.filter (fun l => negb (owned (fn_id update) l))
                         (listeners (run ss result.2) q)) as Hexact.
  { intros ss q. by apply (cleanup_listeners _ _ _ (mkListener "block" update)). }
  pose proof (fun ss ss' =>
                cleanup_tracked (next_fn w) p i0 cid dispatch ss ss' result.2 Htracked)
    as Hafter.
  split; [done|]. split; [|split; [done|split; [|split; [|split; [|split]]]]].
  - intros ss q Hss. rewrite Hexact, listeners_run_external by done.
    unfold result. rewrite subscribe_listeners. simpl.
    pose proof (owned_fresh (next_fn w) _ (wf_listeners _ Hwf q)) as Hq.
    case_decide as Hpq; [subst q|by apply filter_negb_owned_id].
    rewrite List.filter_app, filter_negb_owned_id by done. simpl.
    unfold owned; simpl. rewrite Nat.eqb_refl. simpl. apply app_nil_r.
  - intros ss q Hss. by apply (registered_run _ _ _ ss) in Hreg as [_ Hown].
  - intros ss ss' q n W. destruct (Hafter ss ss') as [HW Hnil]. fold W in HW, Hnil.
    change (fn_id update) with (next_fn w).
    split; [|split].
    + destruct (tracked_dispatch_step _ _ _ _ _ W (NewBlock q n) HW)
        as (extra & -> & [-> |[(m & [= -> ->] & Hone & _)|[(m & [=] & _)|(k & m & [=] & _)]]]).
      * apply app_nil_r.
      * by rewrite Hnil in Hone.
    + destruct (tracked_dispatch_step _ _ _ _ _ W (BlockEmitted q n) HW)
        as (extra & -> & [-> |[(m & [=] & _)|[(m & [=] & _)|(k & m & [=] & _)]]]).
      apply app_nil_r.
    + simpl. by rewrite List.filter_app, waits_for_schedule, Hnil, app_nil_r.
  - intros ss ss' W0 W1.
    destruct (Hafter ss []) as [H0 Hnil].
    exact (unowned_run_bound (next_fn w) p i0 cid dispatch ss' W0 H0 Hnil).
  - intros ss ss' Hnone Hss'.
    trans (dispatchedBy (fn_id update) (run_cleanup result.1 (run ss result.2))); [|done].
    apply (retired_run_quiet _ i0); [|done].
    apply (cleanup_retired _ _ _ (mkListener "block" update)); [done|apply Hamr| |].
    + apply fetch_only_at_run; [simpl; lia|]. by apply subscribe_fetch_only_at.
    + by apply scheduled_for_nil.
  - intros ss ss' k n W Hk. simpl. rewrite fire_run, Hk, dispatchedBy_record_calls.
    f_equal. unfold actions_by, made_by; simpl. by rewrite Nat.eqb_refl.
Qed.

Lemma cleanup_removes_registered_handler_witness :
  well_formed sample_world /\
  let result := subscribeToNewBlock (Some 7) (Some 1%Z) 3 true sample_world in
  let W := run_cleanup result.1 (run [NewBlock 7 100%Z; BlockEmitted 7 101%Z] result.2) in
  listeners W 7 = listeners sample_world 7
  /\ dispatchedBy 1 (step W (NewBlock 7 102%Z)) = dispatchedBy 1 W
  /\ timers W !! 3 = Some (Scheduled (mkFn 1 (UpdateFn 1 3)) 101%Z)
  /\ dispatchedBy 1 (step W (TimerFires 3)) =
     dispatchedBy 1 W ++ [(3, mkBlockNumberChanged 1 101)].
Proof.
  split; [exact sample_world_wf|].
  destruct (cleanup_removes_registered_handler 7 1%Z 3 sample_world sample_world_wf)
    as (_ & Hrestore & _ & _ & Hafter & _ & _ & Hlate).
  split; [|split; [|split]].
  - apply (Hrestore [NewBlock 7 100%Z; BlockEmitted 7 101%Z] 7). repeat constructor.
  - exact (proj1 (Hafter [NewBlock 7 100%Z; BlockEmitted 7 101%Z] [] 7 102%Z)).
  - reflexivity.
  - exact (Hlate [NewBlock 7 100%Z; BlockEmitted 7 101%Z] [] 3 101%Z eq_refl).
Defined.

(** C2 as it is worded asks for more: that after the cleanup has run no
    block event makes the subscription dispatch.  On provider 0 in the
    empty world, block 7 is emitted while the subscription is active, the
    cleanup runs before the provider has called the listeners, and the call
    of [update] the provider had scheduled is made afterwards: block 7 is
    dispatched after the cleanup, with no fetch fulfilled. *)
Lemma block_dispatched_after_cleanup :
  let result := subscribeToNewBlock (Some 0) (Some 1%Z) 0 true empty_world in
  dispatchedBy 0 (run [TimerFires 0] (run_cleanup result.1 (run [BlockEmitted 0 7%Z] result.2)))
  = [(0, mkBlockNumberChanged 1 7)]
  /\ ~ (forall ss ss',
           Forall (fun s => forall n, s <> Fulfil 0 n) ss' ->
           dispatchedBy 0 (run ss' (run_cleanup result.1 (run ss result.2))) =
           dispatchedBy 0 (run ss result.2)).
Proof.
  split; [done|]. intros H.
  specialize (H [BlockEmitted 0 7%Z] [TimerFires 0]).
  discriminate H. by repeat constructor.
Qed.

(** ** Further properties of [subscribeToNewBlock] *)

(** X1.  Running the cleanup function does not cancel the initial
    [getBlockNumber] fetch.  While the fetch has not settled, before or
    after the cleanup, its fulfilment with [n] makes [update] dispatch
    [{chainId, blockNumber: n}], to a component that has unsubscribed.
    After the cleanup [update] dispatches at most once for each call of it
    the provider had scheduled before the cleanup and not yet made, plus
    once for the fetch.  With no such call outstanding at the cleanup it
    dispatches at most once more, and then the number the fetch was
    fulfilled with. *)
Theorem cleanup_does_not_cancel_initial_fetch
        (p : nat) (cid : Z) (dispatch : nat) (w : World) :
  well_formed w ->
  let result := subscribeToNewBlock (Some p) (Some cid) dispatch true w in
  let h := next_fn w in
  let i0 := length (promises w) in
  forall ss ss',
    let W0 := run ss result.2 in
    let W1 := run ss' (run_cleanup result.1 W0) in
    (forall n,
        Forall (fun s => ~ settles i0 s) ss ->
        Forall (fun s => ~ settles i0 s) ss' ->
        dispatchedBy h (step W1 (Fulfil i0 n)) =
        dispatchedBy h W1 ++ [(dispatch, mkBlockNumberChanged cid n)])
    /\ length (dispatchedBy h W1) <=
       length (dispatchedBy h W0) + scheduled_for h W0 + pending_at i0 W0
    /\ (scheduled_for h W0 = 0 ->
        dispatchedBy h W1 = dispatchedBy h W0
        \/ exists n, Fulfil i0 n ∈ ss'
                     /\ dispatchedBy h W1 =
                        dispatchedBy h W0 ++ [(dispatch, mkBlockNumberChanged cid n)])
    /\ (forall ss1 n ss2,
           scheduled_for h W0 = 0 ->
           Forall (fun s => ~ settles i0 s) ss ->
           Forall (fun s => ~ settles i0 s) ss1 ->
           ss' = ss1 ++ Fulfil i0 n :: ss2 ->
           dispatchedBy h W1 =
           dispatchedBy h W0 ++ [(dispatch, mkBlockNumberChanged cid n)]).
Proof.
  intros Hwf result h i0 ss ss' W0 W1.
  pose proof (subscribe_tracked p cid dispatch w Hwf) as Htracked.
  destruct (cleanup_tracked h p i0 cid dispatch ss [] result.2 Htracked) as [H1 Hnil].
  change (run [] ?X) with X in H1, Hnil.
  change (OffBlock p (mkFn h (UpdateFn cid dispatch))) with result.1 in H1, Hnil.
  fold W0 in H1, Hnil.
  assert (forall ss1,
             Forall (fun s => ~ settles i0 s) ss ->
             Forall (fun s => ~ settles i0 s) ss1 ->
             promises (run ss1 (run_cleanup result.1 W0)) !! i0 =
             Some (Pending p (mkFn h (UpdateFn cid dispatch)))) as Hpending.
  { intros ss1 Hss Hss1. apply promise_run; [done|].
    apply (promise_step i0 _ W0 (Unsubscribe result.1)); [simpl; tauto|].
    unfold W0. apply promise_run; [done|]. simpl. by rewrite list_lookup_middle. }
  split; [|split; [|split]].
  - intros n Hss Hss'. by apply (dispatchedBy_fulfil h cid dispatch p), Hpending.
  - pose proof (unowned_run_bound h p i0 cid dispatch ss' _ H1 Hnil) as Hbound.
    fold W1 in Hbound.
    change (dispatchedBy h (run_cleanup result.1 W0)) with (dispatchedBy h W0) in Hbound.
    change (pending_at i0 (run_cleanup result.1 W0)) with (pending_at i0 W0) in Hbound.
    change (scheduled_for h (run_cleanup result.1 W0)) with (scheduled_for h W0) in Hbound.
    lia.
  - intros Hnone. apply scheduled_for_nil in Hnone.
    destruct (unowned_run_dispatches h p i0 cid dispatch ss'
                (run_cleanup result.1 W0) H1 Hnil Hnone) as [Hsame|(n & Hn & Hmore)].
    + left. exact Hsame.
    + right. exists n. split; [exact Hn|exact Hmore].
  - intros ss1 n ss2 Hnone Hss Hss1 ->. apply scheduled_for_nil in Hnone.
    unfold W1. rewrite run_app.
    change (run (Fulfil i0 n :: ss2) ?X) with (run ss2 (step X (Fulfil i0 n))).
    set (W := run ss1 (run_cleanup result.1 W0)).
    pose proof (Hpending ss1 Hss Hss1) as Hpend. fold W in Hpend.
    assert (tracked h p i0 (mkFn h (UpdateFn cid dispatch)) W) as HW by by apply tracked_run.
    assert (h < next_fn (run_cleanup result.1 W0)) as Hlt by by destruct H1 as [[? _] _ _ _].
    assert (retired h i0 (run_cleanup result.1 W0)) as Hret.
    { destruct H1 as [_ Hfetch _ _]. by split. }
    assert (retired h i0 W) as HretW by by apply retired_run.
    assert (dispatchedBy h W = dispatchedBy h W0) as HsameW.
    { apply (retired_run_quiet h i0 ss1 (run_cleanup result.1 W0)); [done|].
      eapply Forall_impl; [exact Hss1|]. intros s Hs m ->. by apply Hs. }
    destruct HretW as [HltW HnilW _ HtimersW].
    rewrite (spent_run h p i0 cid dispatch ss2).
    + by rewrite (dispatchedBy_fulfil h cid dispatch p i0 n W Hpend), HsameW.
    + by apply tracked_step.
    + by apply unowned_step.
    + by apply unscheduled_step.
    + by eapply fulfil_settles.
Qed.

Lemma cleanup_does_not_cancel_initial_fetch_witness :
  well_formed sample_world /\
  let result := subscribeToNewBlock (Some 7) (Some 1%Z) 3 true sample_world in
  scheduled_for 1 (run [NewBlock 7 100%Z] result.2) = 0 /\
  dispatchedBy 1 (run [NewBlock 7 101%Z; Fulfil 0 99%Z]
                      (run_cleanup result.1 (run [NewBlock 7 100%Z] result.2))) =
  dispatchedBy 1 (run [NewBlock 7 100%Z] result.2) ++ [(3, mkBlockNumberChanged 1 99)].
Proof.
  split; [exact sample_world_wf|]. split; [reflexivity|].
  refine (proj2 (proj2 (proj2
            (cleanup_does_not_cancel_initial_fetch 7 1%Z 3 sample_world sample_world_wf
               [NewBlock 7 100%Z] [NewBlock 7 101%Z; Fulfil 0 99%Z])))
            [NewBlock 7 101%Z] 99%Z [] eq_refl _ _ eq_refl);
    repeat constructor; simpl; tauto.
Defined.



Lemma tracked_run_own h p i0 cid d ss w :
  tracked h p i0 (mkFn h (UpdateFn cid d)) w ->
  Forall (fun da => da.1 = d /\ chainId da.2 = cid) (dispatchedBy h w) ->
  Forall (fun da => da.1 = d /\ chainId da.2 = cid) (dispatchedBy h (run ss w)).
Proof.
  revert w. induction ss as [|s ss IH]; intros w Hw Hown; [done|]. simpl.
  apply IH; [by apply tracked_step|].
  destruct (tracked_dispatch_step h p i0 cid d w s Hw)
    as (extra & -> & [-> |[(n & _ & _ & ->)|[(n & _ & _ & ->)|(k & n & _ & _ & ->)]]]);
    apply Forall_app; split; try done; by repeat constructor.
Qed.

(** X3.  Whatever happens after an active subscription is made (block
    events of any provider, promises settling, other subscriptions,
    cleanups), every action its [update] ever dispatches goes to the
    [dispatch] function it was given and carries the [chainId] it was
    given. *)
Theorem update_dispatches_own_chainId (p : nat) (cid : Z) (dispatch : nat) (w : World) :
  well_formed w ->
  let result := subscribeToNewBlock (Some p) (Some cid) dispatch true w in
  forall ss,
    Forall (fun da => da.1 = dispatch /\ chainId da.2 = cid)
           (dispatchedBy (next_fn w) (run ss result.2)).
Proof.
  intros Hwf result ss.
  apply (tracked_run_own _ p (length (promises w))).
  - by apply subscribe_tracked.
  - unfold result. by rewrite subscribe_no_dispatch_yet.
Qed.

Lemma update_dispatches_own_chainId_witness :
  well_formed sample_world /\
  let result := subscribeToNewBlock (Some 7) (Some 1%Z) 3 true sample_world in
  Forall (fun da => da.1 = 3 /\ chainId da.2 = 1%Z)
         (dispatchedBy 1 (run [NewBlock 7 100%Z; Subscribe (Some 7) (Some 5%Z) 4 true;
                               NewBlock 7 101%Z; Fulfil 0 99%Z] result.2)).
Proof.
  split; [exact sample_world_wf|].
  exact (update_dispatches_own_chainId 7 1%Z 3 sample_world sample_world_wf _).
Defined.

(** X4.  An active subscription dispatches at most once per block event of
    its provider, plus once for the initial fetch, whatever else happens:
    after any steps, [update] has dispatched no more actions than the steps
    hold block events of the provider, plus one. *)
Theorem dispatches_bounded_by_block_events
        (p : nat) (cid : Z) (dispatch : nat) (w : World) :
  well_formed w ->
  let result := subscribeToNewBlock (Some p) (Some cid) dispatch true w in
  forall ss,
    length (dispatchedBy (next_fn w) (run ss result.2)) <= blocks_of p ss + 1.
Proof.
  intros Hwf result ss.
  pose proof (tracked_run_bound _ p (length (promises w)) cid dispatch ss result.2
                (subscribe_tracked p cid dispatch w Hwf)) as Hbound.
  unfold result in Hbound.
  rewrite subscribe_no_dispatch_yet, subscribe_unscheduled in Hbound by done.
  assert (pending_at (length (promises w))
                     (subscribeToNewBlock (Some p) (Some cid) dispatch true w).2 = 1) as Hone.
  { unfold pending_at. simpl. by rewrite list_lookup_middle. }
  rewrite Hone in Hbound. cbn [length] in Hbound. unfold result. lia.
Qed.

Lemma dispatches_bounded_by_block_events_witness :
  well_formed sample_world /\
  let result := subscribeToNewBlock (Some 7) (Some 1%Z) 3 true sample_world in
  length (dispatchedBy 1 (run [NewBlock 7 100%Z; NewBlock 8 100%Z; Fulfil 0 99%Z;
                               Fulfil 0 98%Z; NewBlock 7 101%Z] result.2)) <= 2 + 1.
Proof.
  split; [exact sample_world_wf|].
  exact (dispatches_bounded_by_block_events 7 1%Z 3 sample_world sample_world_wf
           [NewBlock 7 100%Z; NewBlock 8 100%Z; Fulfil 0 99%Z; Fulfil 0 98%Z;
            NewBlock 7 101%Z]).
Defined.

Lemma remove_first_app_fresh t f ls ls' :
  List.filter (owned (fn_id f)) ls = [] ->
  remove_first t f (ls ++ ls') = ls ++ remove_first t f ls'.
Proof.
  induction ls as [|l ls IH]; [done|]. simpl.
  unfold same_listener. fold (owned (fn_id f) l).
  destruct (owned (fn_id f) l); [done|].
  rewrite andb_false_r. intros H. f_equal. by apply IH.
Qed.

(** X5.  Two subscriptions on one provider do not disturb each other, even
    when they are made with the same arguments: the provider's table gets
    the two [update] functions in the order of the calls, a block event
    makes both dispatch, in that order, each cleanup function removes the
    entry of its own subscription and leaves the other one in place (after
    the first cleanup only the second subscription dispatches), and the two
    cleanups, in either order, give back the table from before the first
    subscription. *)
Theorem subscriptions_are_independent
        (p : nat) (cid1 cid2 : Z) (dispatch1 dispatch2 : nat) (w : World) :
  well_formed w ->
  let r1 := subscribeToNewBlock (Some p) (Some cid1) dispatch1 true w in
  let r2 := subscribeToNewBlock (Some p) (Some cid2) dispatch2 true r1.2 in
  let update1 := mkFn (next_fn w) (UpdateFn cid1 dispatch1) in
  let update2 := mkFn (S (next_fn w)) (UpdateFn cid2 dispatch2) in
  let e1 := mkListener "block" update1 in
  let e2 := mkListener "block" update2 in
  listeners r2.2 p = listeners w p ++ [e1; e2]
  /\ listeners (run_cleanup r1.1 r2.2) p = listeners w p ++ [e2]
  /\ listeners (run_cleanup r2.1 r2.2) p = listeners w p ++ [e1]
  /\ listeners (run_cleanup r2.1 (run_cleanup r1.1 r2.2)) p = listeners w p
  /\ listeners (run_cleanup r1.1 (run_cleanup r2.1 r2.2)) p = listeners w p
  /\ (forall n,
         dispatched (step r2.2 (NewBlock p n)) =
         dispatched (step w (NewBlock p n)) ++
         [mkDispatchCall (fn_id update1) dispatch1 (mkBlockNumberChanged cid1 n);
          mkDispatchCall (fn_id update2) dispatch2 (mkBlockNumberChanged cid2 n)])
  /\ (forall n,
         dispatched (step (run_cleanup r1.1 r2.2) (NewBlock p n)) =
         dispatched (step w (NewBlock p n)) ++
         [mkDispatchCall (fn_id update2) dispatch2 (mkBlockNumberChanged cid2 n)]).
Proof.
  intros Hwf r1 r2 update1 update2 e1 e2.
  assert (List.filter (owned (fn_id update1)) (listeners w p) = []) as Hfresh1
      by apply owned_fresh, (wf_listeners _ Hwf).
  assert (List.filter (owned (fn_id update2)) (listeners w p) = []) as Hfresh2.
  { apply owned_fresh. intros l Hl. apply (wf_listeners _ Hwf) in Hl. simpl. lia. }
  assert (Nat.eqb (next_fn w) (S (next_fn w)) = false) as Hne
      by (apply Nat.eqb_neq; lia).
  assert (Nat.eqb (S (next_fn w)) (next_fn w) = false) as Hne'
      by (apply Nat.eqb_neq; lia).
  assert (listeners r2.2 p = listeners w p ++ [e1; e2]) as Htable.
  { unfold r2. rewrite subscribe_listeners, decide_True by done.
    unfold r1. rewrite subscribe_listeners, decide_True by done.
    by rewrite <- app_assoc. }
  assert (listeners (run_cleanup r1.1 r2.2) p = listeners w p ++ [e2]) as Hoff1.
  { change (run_cleanup r1.1 r2.2) with (off p "block" update1 r2.2).
    rewrite listeners_off, decide_True, Htable by done.
    rewrite (remove_first_app_fresh "block" update1) by done. simpl.
    unfold same_listener; simpl. by rewrite Nat.eqb_refl. }
  assert (listeners (run_cleanup r2.1 r2.2) p = listeners w p ++ [e1]) as Hoff2.
  { change (run_cleanup r2.1 r2.2) with (off p "block" update2 r2.2).
    rewrite listeners_off, decide_True, Htable by done.
    rewrite (remove_first_app_fresh "block" update2) by done.
    simpl. unfold same_listener; simpl. by rewrite Hne, Nat.eqb_refl. }
  split; [done|]. split; [done|]. split; [done|]. split; [|split; [|split]].
  - change (run_cleanup r2.1 ?W) with (off p "block" update2 W).
    rewrite listeners_off, decide_True, Hoff1 by done.
    rewrite (remove_first_app_fresh "block" update2) by done. simpl.
    unfold same_listener; simpl. rewrite Nat.eqb_refl. simpl. apply app_nil_r.
  - change (run_cleanup r1.1 ?W) with (off p "block" update1 W).
    rewrite listeners_off, decide_True, Hoff2 by done.
    rewrite (remove_first_app_fresh "block" update1) by done. simpl.
    unfold same_listener; simpl. rewrite Nat.eqb_refl. simpl. apply app_nil_r.
  - intros n. change (step ?W (NewBlock p n)) with (emit_and_fire p "block" n W).
    rewrite !emit_calls. cbn [record_calls set_timers dispatched].
    rewrite Htable, flat_map_app, app_assoc. done.
  - intros n. change (step ?W (NewBlock p n)) with (emit_and_fire p "block" n W).
    rewrite !emit_calls. cbn [record_calls set_timers dispatched].
    rewrite Hoff1, flat_map_app, app_assoc. done.
Qed.

Lemma subscriptions_are_independent_witness :
  well_formed sample_world /\
  let r1 := subscribeToNewBlock (Some 7) (Some 1%Z) 3 true sample_world in
  let r2 := subscribeToNewBlock (Some 7) (Some 1%Z) 3 true r1.2 in
  listeners (run_cleanup r1.1 r2.2) 7 =
  listeners sample_world 7 ++ [mkListener "block" (mkFn 2 (UpdateFn 1 3))].
Proof.
  split; [exact sample_world_wf|].
  exact (proj1 (proj2 (subscriptions_are_independent 7 1%Z 1%Z 3 3 sample_world
                         sample_world_wf))).
Defined.

End BlockNumberFacts.
(** ** Facts about [WalletConnectConnector] *)

Module WalletConnectFacts.
Import WalletConnect.

Section Facts.
Context {Opts Number : Type}.
Variable parseInt : string -> Number.

Abbreviation Env := (Env Opts Number).
Abbreviation World := (World Opts).
Abbreviation Effect := (Effect Opts Number).

Implicit Types (env : Env) (w : World) (e : Thrown).

(** *** Running [init] *)

Lemma init_defined env w p :
  provider (this w) = Some p -> init env w = mkRun (Returns tt) w [].
Proof. intros H. unfold init, bind, get_this; simpl. by rewrite H. Qed.

(** The three ways [init] can go when [this.provider] is undefined. *)
Lemma init_new_wc_throws env w e :
  provider (this w) = None ->
  env_new_wc env (opts (this w)) = Throws e ->
  init env w = mkRun (Throws e) w [NewWalletConnectProvider (opts (this w))].
Proof.
  intros Hp Hwc. unfold init, new_WalletConnectProvider, bind, get_this, call_out; simpl.
  by rewrite Hp; simpl; rewrite Hwc.
Qed.

Lemma init_new_web3_throws env w e :
  let wc := mkWalletConnectProvider (next_obj w) (opts (this w)) in
  provider (this w) = None ->
  env_new_wc env (opts (this w)) = Returns tt ->
  env_new_web3 env wc = Throws e ->
  init env w =
  mkRun (Throws e) (mkWorld (this w) (S (next_obj w)))
        [NewWalletConnectProvider (opts (this w)); NewWeb3Provider wc].
Proof.
  intros wc Hp Hwc Hweb3.
  unfold init, new_WalletConnectProvider, new_Web3Provider, bind, get_this, call_out,
    fresh_id, ret; simpl.
  rewrite Hp; simpl; rewrite Hwc; simpl. fold wc. by rewrite Hweb3.
Qed.

Lemma init_constructs env w :
  let wc := mkWalletConnectProvider (next_obj w) (opts (this w)) in
  let web3 := mkWeb3Provider (S (next_obj w)) wc in
  provider (this w) = None ->
  env_new_wc env (opts (this w)) = Returns tt ->
  env_new_web3 env wc = Returns tt ->
  init env w =
  mkRun (match env_enable env wc with
         | Returns _ => Returns tt
         | Throws e => Throws e
         end)
        (mkWorld (mkConnector (Some web3) (opts (this w))) (S (S (next_obj w))))
        [NewWalletConnectProvider (opts (this w)); NewWeb3Provider wc; Enable wc].
Proof.
  intros wc web3 Hp Hwc Hweb3.
  unfold init, new_WalletConnectProvider, new_Web3Provider, enable, the_provider,
    set_provider, bind, get_this, call_out, fresh_id, ret; simpl.
  rewrite Hp; simpl; rewrite Hwc; simpl. fold wc. rewrite Hweb3; simpl.
  fold web3. by destruct (env_enable env wc).
Qed.

Lemma init_returns env w :
  outcome (init env w) = Returns tt ->
  exists p, provider (this (final (init env w))) = Some p.
Proof.
  destruct (provider (this w)) as [p|] eqn:Hp.
  - rewrite (init_defined env w p Hp). simpl. eauto.
  - destruct (env_new_wc env (opts (this w))) as [[]|e] eqn:Hwc.
    2: { by rewrite (init_new_wc_throws env w e). }
    destruct (env_new_web3 env (mkWalletConnectProvider (next_obj w) (opts (this w))))
      as [[]|e] eqn:Hweb3.
    2: { by rewrite (init_new_web3_throws env w e). }
    rewrite init_constructs by done. simpl. eauto.
Qed.

Lemma init_emits_nothing env w : emitted (effects (init env w)) = [].
Proof.
  destruct (provider (this w)) as [p|] eqn:Hp.
  - by rewrite (init_defined env w p Hp).
  - destruct (env_new_wc env (opts (this w))) as [[]|e] eqn:Hwc.
    2: { by rewrite (init_new_wc_throws env w e). }
    destruct (env_new_web3 env (mkWalletConnectProvider (next_obj w) (opts (this w))))
      as [[]|e] eqn:Hweb3.
    2: { by rewrite (init_new_web3_throws env w e). }
    by rewrite init_constructs.
Qed.

Lemma connectEagerly_try env :
  connectEagerly parseInt env = try_catch (announce parseInt env) (fun e => console_debug e).
Proof. done. Qed.

Lemma activate_try env :
  activate parseInt env =
  try_catch (announce parseInt env)
            (fun e => bind (console_log e)
                           (fun _ => throw (JsError "Could not activate connector"))).
Proof. done. Qed.

Lemma succeeds_or_fails env w :
  (exists p s a, succeeds env w p s a) \/ (exists requests e, fails_at env w requests e).
Proof.
  destruct (outcome (init env w)) as [[]|e] eqn:Hinit.
  2: { right. exists [], e. by constructor. }
  destruct (init_returns env w Hinit) as [p Hp].
  destruct (env_send env p _ eth_chainId) as [s|e] eqn:Hs.
  2: { right. eexists _, e. by eapply fails_at_chainId. }
  destruct (env_send env p _ eth_accounts) as [a|e] eqn:Ha.
  2: { right. eexists _, e. by eapply fails_at_accounts. }
  left. by exists p, s, a.
Qed.

Lemma succeeds_not_fails env w p s a requests e :
  succeeds env w p s a -> ~ fails_at env w requests e.
Proof.
  intros (Hinit & Hp & Hs & Ha) Hfail.
  destruct Hfail; congruence.
Qed.

Lemma announce_succeeds env w p s a :
  succeeds env w p s a ->
  announce parseInt env w =
  mkRun (env_emit env (mkConnectorUpdateData (parseInt s) a))
        (final (init env w))
        (effects (init env w) ++
         [Send p "eth_chainId"; Send p "eth_accounts";
          Emit (mkConnectorUpdateData (parseInt s) a)]).
Proof.
  intros (Hinit & Hp & Hs & Ha). unfold announce.
  destruct (init env w) as [o0 w0 efs0] eqn:Hrun. simpl in *. subst o0.
  unfold bind at 1. rewrite Hrun. simpl.
  unfold the_provider, send, emit, call_out, get_this, ret, bind; simpl.
  by repeat (rewrite ?Hp, ?Hs, ?Ha; simpl).
Qed.

Lemma announce_fails env w requests e :
  fails_at env w requests e ->
  announce parseInt env w = mkRun (Throws e) (final (init env w)) (effects (init env w) ++ requests).
Proof.
  intros Hfail. unfold announce.
  destruct (init env w) as [o0 w0 efs0] eqn:Hrun.
  destruct Hfail as [e Hinit|p e Hinit Hp Hs|p s e Hinit Hp Hs Ha];
    rewrite Hrun in *; simpl in *; subst o0;
    unfold bind at 1; rewrite Hrun; simpl.
  - by rewrite app_nil_r.
  - unfold the_provider, send, call_out, get_this, ret, bind; simpl.
    by repeat (rewrite ?Hp, ?Hs; simpl).
  - unfold the_provider, send, call_out, get_this, ret, bind; simpl.
    by repeat (rewrite ?Hp, ?Hs, ?Ha; simpl).
Qed.

(** *** Running [connectEagerly] and [activate] *)

Lemma connectEagerly_succeeds env w p s a :
  succeeds env w p s a ->
  let data := mkConnectorUpdateData (parseInt s) a in
  connectEagerly parseInt env w =
  mkRun (Returns tt) (final (init env w))
        ((effects (init env w) ++ [Send p "eth_chainId"; Send p "eth_accounts"; Emit data])
         ++ match env_emit env data with
            | Returns _ => []
            | Throws e => [ConsoleDebug e]
            end).
Proof.
  intros Hok data. rewrite connectEagerly_try. unfold try_catch.
  rewrite (announce_succeeds env w p s a Hok). fold data. simpl.
  destruct (env_emit env data) as [[]|e]; simpl; [|done].
  by rewrite app_nil_r.
Qed.

Lemma connectEagerly_fails env w requests e :
  fails_at env w requests e ->
  connectEagerly parseInt env w =
  mkRun (Returns tt) (final (init env w))
        ((effects (init env w) ++ requests) ++ [ConsoleDebug e]).
Proof.
  intros Hfail. rewrite connectEagerly_try. unfold try_catch.
  by rewrite (announce_fails env w requests e Hfail).
Qed.

Lemma activate_succeeds env w p s a :
  succeeds env w p s a ->
  let data := mkConnectorUpdateData (parseInt s) a in
  activate parseInt env w =
  mkRun (match env_emit env data with
         | Returns _ => Returns tt
         | Throws _ => Throws (JsError "Could not activate connector")
         end)
        (final (init env w))
        ((effects (init env w) ++ [Send p "eth_chainId"; Send p "eth_accounts"; Emit data])
         ++ match env_emit env data with
            | Returns _ => []
            | Throws e => [ConsoleLog e]
            end).
Proof.
  intros Hok data. rewrite activate_try. unfold try_catch.
  rewrite (announce_succeeds env w p s a Hok). fold data. simpl.
  destruct (env_emit env data) as [[]|e]; simpl; [|done].
  by rewrite app_nil_r.
Qed.

Lemma activate_fails env w requests e :
  fails_at env w requests e ->
  activate parseInt env w =
  mkRun (Throws (JsError "Could not activate connector")) (final (init env w))
        ((effects (init env w) ++ requests) ++ [ConsoleLog e]).
Proof.
  intros Hfail. rewrite activate_try. unfold try_catch.
  by rewrite (announce_fails env w requests e Hfail).
Qed.

Lemma emitted_app (efs efs' : list Effect) : emitted (efs ++ efs') = emitted efs ++ emitted efs'.
Proof. apply omap_app. Qed.

Lemma emitted_requests env w requests e : fails_at env w requests e -> emitted requests = [].
Proof. by destruct 1. Qed.

Lemma sets_up_requests env w requests e :
  fails_at env w requests e -> List.filter sets_up requests = [].
Proof. by destruct 1. Qed.

(** C7.  When initialization and the two requests succeed, [activate] emits
    exactly one update event, [{chainId: parseInt(chainId), accounts}], and
    resolves unless a subscriber of that event throws.  When one of them
    fails, [activate] logs the failure, throws
    [Error('Could not activate connector')] and has emitted nothing; it has
    done what [init] did, made the requests up to the failing one, and
    nothing more.  One of the two cases always applies. *)
Theorem activate_emits_once_or_throws env w :
  (forall p s a,
      succeeds env w p s a ->
      let data := mkConnectorUpdateData (parseInt s) a in
      emitted (effects (activate parseInt env w)) = [data]
      /\ (env_emit env data = Returns tt -> outcome (activate parseInt env w) = Returns tt))
  /\ (forall requests e,
         fails_at env w requests e ->
         outcome (activate parseInt env w) = Throws (JsError "Could not activate connector")
         /\ emitted (effects (activate parseInt env w)) = []
         /\ effects (activate parseInt env w) =
            (effects (init env w) ++ requests) ++ [ConsoleLog e])
  /\ ((exists p s a, succeeds env w p s a) \/ (exists requests e, fails_at env w requests e)).
Proof.
  split; [|split; [|apply succeeds_or_fails]].
  - intros p s a Hok data. rewrite (activate_succeeds env w p s a Hok). fold data. simpl.
    split.
    + rewrite !emitted_app, init_emits_nothing. simpl.
      by destruct (env_emit env data).
    + by intros ->.
  - intros requests e Hfail. rewrite (activate_fails env w requests e Hfail). simpl.
    repeat split. rewrite !emitted_app, init_emits_nothing.
    by rewrite (emitted_requests env w requests e).
Qed.

(** C8.  [connectEagerly] always resolves.  It leaves the connector as
    [init] left it; in particular, when [enable] is what failed, the
    provider constructed just before stays in [this.provider].  When
    initialization or a request fails, it has done what [init] did, made
    the requests up to the failing one, written the failure to
    [console.debug], and emitted nothing.  An update event is emitted only
    by a run in which all of them succeeded, and then exactly once. *)
Theorem connectEagerly_never_throws env w :
  outcome (connectEagerly parseInt env w) = Returns tt
  /\ final (connectEagerly parseInt env w) = final (init env w)
  /\ (forall requests e,
         fails_at env w requests e ->
         effects (connectEagerly parseInt env w) =
         (effects (init env w) ++ requests) ++ [ConsoleDebug e]
         /\ emitted (effects (connectEagerly parseInt env w)) = [])
  /\ (forall e,
         let wc := mkWalletConnectProvider (next_obj w) (opts (this w)) in
         provider (this w) = None ->
         env_new_wc env (opts (this w)) = Returns tt ->
         env_new_web3 env wc = Returns tt ->
         env_enable env wc = Throws e ->
         fails_at env w [] e
         /\ provider (this (final (connectEagerly parseInt env w))) =
            Some (mkWeb3Provider (S (next_obj w)) wc))
  /\ (forall data,
         data ∈ emitted (effects (connectEagerly parseInt env w)) ->
         exists p s a, succeeds env w p s a /\ data = mkConnectorUpdateData (parseInt s) a)
  /\ (forall p s a,
         succeeds env w p s a ->
         emitted (effects (connectEagerly parseInt env w)) =
         [mkConnectorUpdateData (parseInt s) a]).
Proof.
  assert (forall requests e,
             fails_at env w requests e ->
             emitted (effects (connectEagerly parseInt env w)) = []) as Hnone.
  { intros requests e Hfail. rewrite (connectEagerly_fails env w requests e Hfail). simpl.
    rewrite !emitted_app, init_emits_nothing.
    by rewrite (emitted_requests env w requests e). }
  assert (forall p s a,
             succeeds env w p s a ->
             emitted (effects (connectEagerly parseInt env w)) =
             [mkConnectorUpdateData (parseInt s) a]) as Hone.
  { intros p s a Hok. rewrite (connectEagerly_succeeds env w p s a Hok). simpl.
    rewrite !emitted_app, init_emits_nothing. simpl.
    by destruct (env_emit env _). }
  assert (outcome (connectEagerly parseInt env w) = Returns tt
          /\ final (connectEagerly parseInt env w) = final (init env w)) as [Hout Hfinal].
  { destruct (succeeds_or_fails env w) as [(p & s & a & Hok)|(requests & e & Hfail)].
    - by rewrite (connectEagerly_succeeds env w p s a Hok).
    - by rewrite (connectEagerly_fails env w requests e Hfail). }
  split; [done|]. split; [done|]. split; [|split; [|split; [|done]]].
  - intros requests e Hfail. split; [|by eapply Hnone].
    by rewrite (connectEagerly_fails env w requests e Hfail).
  - intros e wc Hp Hwc Hweb3 Henable. subst wc.
    split; [|by rewrite Hfinal, init_constructs].
    apply fails_at_init. by rewrite init_constructs, Henable.
  - intros data Hdata.
    destruct (succeeds_or_fails env w) as [(p & s & a & Hok)|(requests & e & Hfail)].
    + rewrite (Hone p s a Hok) in Hdata. apply list_elem_of_singleton in Hdata.
      by exists p, s, a.
    + rewrite (Hnone requests e Hfail) in Hdata. by apply elem_of_nil in Hdata.
Qed.

(** *** Allocation is kept by every call *)

Lemma init_allocated env w : allocated w -> allocated (final (init env w)).
Proof.
  intros Hw. destruct (provider (this w)) as [p|] eqn:Hp.
  - by rewrite (init_defined env w p Hp).
  - destruct (env_new_wc env (opts (this w))) as [[]|e] eqn:Hwc.
    2: { by rewrite (init_new_wc_throws env w e). }
    destruct (env_new_web3 env (mkWalletConnectProvider (next_obj w) (opts (this w))))
      as [[]|e] eqn:Hweb3.
    2: { rewrite (init_new_web3_throws env w e) by done.
         unfold allocated. simpl. by rewrite Hp. }
    rewrite init_constructs by done. unfold allocated. simpl. lia.
Qed.

Lemma final_connectEagerly env w :
  final (connectEagerly parseInt env w) = final (init env w).
Proof.
  destruct (succeeds_or_fails env w) as [(p & s & a & Hok)|(requests & e & Hfail)].
  - by rewrite (connectEagerly_succeeds env w p s a Hok).
  - by rewrite (connectEagerly_fails env w requests e Hfail).
Qed.

Lemma final_activate env w :
  final (activate parseInt env w) = final (init env w).
Proof.
  destruct (succeeds_or_fails env w) as [(p & s & a & Hok)|(requests & e & Hfail)].
  - by rewrite (activate_succeeds env w p s a Hok).
  - by rewrite (activate_fails env w requests e Hfail).
Qed.

Lemma perform_allocated (c : Call Opts Number) w :
  allocated w -> allocated (final (perform parseInt c w)).
Proof.
  intros Hw. destruct c as [env|env|]; simpl.
  - rewrite final_connectEagerly. by apply init_allocated.
  - rewrite final_activate. by apply init_allocated.
  - done.
Qed.

Lemma perform_all_allocated (cs : list (Call Opts Number)) w :
  allocated w -> allocated (perform_all parseInt cs w).1.
Proof.
  revert w. induction cs as [|c cs IH]; intros w Hw; [done|]. simpl.
  specialize (IH _ (perform_allocated c w Hw)).
  by destruct (perform_all parseInt cs (final (perform parseInt c w))).
Qed.

(** *** Calls on a connector that has a provider *)

Lemma perform_defined (c : Call Opts Number) w p :
  provider (this w) = Some p -> c <> Deactivate ->
  final (perform parseInt c w) = w
  /\ List.filter sets_up (effects (perform parseInt c w)) = [].
Proof.
  intros Hp Hc. pose proof (init_defined) as Hinit.
  destruct c as [env|env|]; [| |done]; simpl;
    specialize (Hinit env w p Hp);
    (destruct (succeeds_or_fails env w) as [(p' & s & a & Hok)|(requests & e & Hfail)];
     [ first [rewrite (connectEagerly_succeeds env w p' s a Hok)
             |rewrite (activate_succeeds env w p' s a Hok)]
     | first [rewrite (connectEagerly_fails env w requests e Hfail)
             |rewrite (activate_fails env w requests e Hfail)] ]);
    rewrite Hinit; simpl; (split; [done|]).
  - by destruct (env_emit env _).
  - rewrite List.filter_app, (sets_up_requests env w requests e Hfail). done.
  - by destruct (env_emit env _).
  - rewrite List.filter_app, (sets_up_requests env w requests e Hfail). done.
Qed.

Lemma perform_all_defined (cs : list (Call Opts Number)) w p :
  provider (this w) = Some p ->
  Forall (fun c => c <> Deactivate) cs ->
  (perform_all parseInt cs w).1 = w
  /\ List.filter sets_up (perform_all parseInt cs w).2 = [].
Proof.
  intros Hp Hcs. induction Hcs as [|c cs Hc _ IH]; [done|]. simpl.
  destruct (perform_defined c w p Hp Hc) as [-> Hefs].
  destruct (perform_all parseInt cs w) as [w' efs]. simpl in *.
  destruct IH as [-> Hefs']. split; [done|].
  by rewrite List.filter_app, Hefs, Hefs'.
Qed.

(** C9.  With [this.provider] defined, [init] returns at once: it changes
    nothing and calls neither a constructor nor [enable].  So any series of
    [activate] and [connectEagerly] calls leaves the connector with the
    same provider object, and makes no constructor or [enable] call.
    [deactivate] makes [this.provider] undefined, and the [init] after it
    starts by calling [new WalletConnectProvider(this.opts)]; when both
    constructors return it leaves in [this.provider] a new [Web3Provider]
    around a new [WalletConnectProvider], neither of them the object that
    was there before, and has called [enable] on the latter. *)
Theorem init_reuses_provider env w p :
  provider (this w) = Some p ->
  allocated w ->
  init env w = mkRun (Returns tt) w []
  /\ (forall cs : list (Call Opts Number),
         Forall (fun c => c <> Deactivate) cs ->
         provider (this (perform_all parseInt cs w).1) = Some p
         /\ List.filter sets_up (perform_all parseInt cs w).2 = [])
  /\ provider (this (final (@deactivate Opts Number w))) = None
  /\ (let w0 := final (@deactivate Opts Number w) in
      let wc := mkWalletConnectProvider (next_obj w) (opts (this w)) in
      let web3 := mkWeb3Provider (S (next_obj w)) wc in
      head (effects (init env w0)) = Some (NewWalletConnectProvider (opts (this w)))
      /\ (env_new_wc env (opts (this w)) = Returns tt ->
          env_new_web3 env wc = Returns tt ->
          provider (this (final (init env w0))) = Some web3
          /\ web3_id web3 <> web3_id p
          /\ wc_id (wrapped web3) <> wc_id (wrapped p)
          /\ effects (init env w0) =
             [NewWalletConnectProvider (opts (this w)); NewWeb3Provider wc; Enable wc])).
Proof.
  intros Hp Halloc. split; [by apply (init_defined env w p)|]. split; [|split; [done|]].
  - intros cs Hcs. by destruct (perform_all_defined cs w p Hp Hcs) as [-> Hefs].
  - intros w0 wc web3.
    assert (provider (this w0) = None) as Hnone by done.
    split.
    + destruct (env_new_wc env (opts (this w0))) as [[]|e] eqn:Hwc.
      2: { by rewrite (init_new_wc_throws env w0 e). }
      destruct (env_new_web3 env (mkWalletConnectProvider (next_obj w0) (opts (this w0))))
        as [[]|e] eqn:Hweb3.
      2: { by rewrite (init_new_web3_throws env w0 e). }
      by rewrite init_constructs.
    + intros Hwc Hweb3. rewrite init_constructs by done. simpl.
      unfold allocated in Halloc. rewrite Hp in Halloc.
      repeat split; lia.
Qed.

(** ** Further properties of [WalletConnectConnector] *)

(** [init] only constructs and enables, and with the connector's options. *)
Lemma init_effects env w :
  Forall (fun ef => sets_up ef = true /\ built_from (opts (this w)) ef)
         (effects (init env w)).
Proof.
  destruct (provider (this w)) as [p|] eqn:Hp.
  - by rewrite (init_defined env w p Hp).
  - destruct (env_new_wc env (opts (this w))) as [[]|e] eqn:Hwc.
    2: { rewrite (init_new_wc_throws env w e) by done. by repeat constructor. }
    destruct (env_new_web3 env (mkWalletConnectProvider (next_obj w) (opts (this w))))
      as [[]|e] eqn:Hweb3.
    2: { rewrite (init_new_web3_throws env w e) by done. by repeat constructor. }
    rewrite init_constructs by done. by repeat constructor.
Qed.

Lemma init_opts env w : opts (this (final (init env w))) = opts (this w).
Proof.
  destruct (provider (this w)) as [p|] eqn:Hp.
  - by rewrite (init_defined env w p Hp).
  - destruct (env_new_wc env (opts (this w))) as [[]|e] eqn:Hwc.
    2: { by rewrite (init_new_wc_throws env w e). }
    destruct (env_new_web3 env (mkWalletConnectProvider (next_obj w) (opts (this w))))
      as [[]|e] eqn:Hweb3.
    2: { by rewrite (init_new_web3_throws env w e). }
    by rewrite init_constructs.
Qed.

Lemma demote_init env w : demote <$> effects (init env w) = effects (init env w).
Proof.
  pose proof (init_effects env w) as H.
  induction H as [|ef efs [Hef _] _ IH]; [done|].
  rewrite fmap_cons, IH. f_equal. by destruct ef.
Qed.

Lemma demote_requests env w requests e :
  fails_at env w requests e -> demote <$> requests = requests.
Proof. by destruct 1. Qed.

Lemma init_no_console env w e : ConsoleDebug e ∉ effects (init env w).
Proof.
  intros Hin. pose proof (init_effects env w) as H.
  rewrite Forall_forall in H. by destruct (H _ Hin) as [? _].
Qed.

Lemma init_no_send env w p m : Send p m ∉ effects (init env w).
Proof.
  intros Hin. pose proof (init_effects env w) as H.
  rewrite Forall_forall in H. by destruct (H _ Hin) as [? _].
Qed.

(** X6.  A failed [enable] is not retried.  When [activate] (or
    [connectEagerly]) fails because [enable] rejects, the provider
    constructed for the attempt stays in [this.provider]; the next call
    finds it there, calls no constructor and no [enable], and sends its
    requests to that provider; if the wallet answers them, the next call
    emits an update although [enable] never succeeded. *)
Theorem failed_enable_is_not_retried (env env' : Env) w e :
  let wc := mkWalletConnectProvider (next_obj w) (opts (this w)) in
  let web3 := mkWeb3Provider (S (next_obj w)) wc in
  provider (this w) = None ->
  env_new_wc env (opts (this w)) = Returns tt ->
  env_new_web3 env wc = Returns tt ->
  env_enable env wc = Throws e ->
  let w1 := final (activate parseInt env w) in
  outcome (activate parseInt env w) = Throws (JsError "Could not activate connector")
  /\ final (connectEagerly parseInt env w) = w1
  /\ provider (this w1) = Some web3
  /\ List.filter sets_up (effects (activate parseInt env' w1)) = []
  /\ List.filter sets_up (effects (connectEagerly parseInt env' w1)) = []
  /\ (forall s a,
         env_send env' web3 _ eth_chainId = Returns s ->
         env_send env' web3 _ eth_accounts = Returns a ->
         let data := mkConnectorUpdateData (parseInt s) a in
         effects (activate parseInt env' w1) =
         [Send web3 "eth_chainId"; Send web3 "eth_accounts"; Emit data]
         ++ match env_emit env' data with
            | Returns _ => []
            | Throws e' => [ConsoleLog e']
            end).
Proof.
  intros wc web3 Hp Hwc Hweb3 Henable w1. unfold wc in Hweb3, Henable.
  assert (fails_at env w [] e) as Hfail.
  { apply fails_at_init. by rewrite init_constructs, Henable. }
  assert (w1 = mkWorld (mkConnector (Some web3) (opts (this w))) (S (S (next_obj w))))
    as Hw1.
  { unfold w1. rewrite (activate_fails env w [] e Hfail). simpl.
    by rewrite init_constructs. }
  assert (provider (this w1) = Some web3) as Hp1 by by rewrite Hw1.
  split; [by rewrite (activate_fails env w [] e Hfail)|].
  split; [unfold w1; by rewrite final_connectEagerly, final_activate|].
  split; [done|].
  split; [apply (perform_defined (Activate env') w1 web3 Hp1); done|].
  split; [apply (perform_defined (ConnectEagerly env') w1 web3 Hp1); done|].
  intros s a Hs Ha data.
  assert (succeeds env' w1 web3 s a) as Hok.
  { unfold succeeds. by rewrite (init_defined env' w1 web3 Hp1). }
  rewrite (activate_succeeds env' w1 web3 s a Hok).
  by rewrite (init_defined env' w1 web3 Hp1).
Qed.

(** X7.  [connectEagerly] is [activate] with the failure swallowed: on the
    same world and against the same wallet the two leave the connector in
    the same state, emit the same update events and have the same effects,
    except that what [activate] writes to [console.log], [connectEagerly]
    writes to [console.debug]; and [connectEagerly] writes to
    [console.debug] exactly when [activate] throws. *)
Theorem connectEagerly_is_activate_without_throw env w :
  final (connectEagerly parseInt env w) = final (activate parseInt env w)
  /\ effects (connectEagerly parseInt env w) = demote <$> effects (activate parseInt env w)
  /\ emitted (effects (connectEagerly parseInt env w)) =
     emitted (effects (activate parseInt env w))
  /\ (outcome (activate parseInt env w) = Throws (JsError "Could not activate connector")
      <-> exists e, ConsoleDebug e ∈ effects (connectEagerly parseInt env w))
  /\ (outcome (activate parseInt env w) = Returns tt
      <-> forall e, ConsoleDebug e ∉ effects (connectEagerly parseInt env w)).
Proof.
  split; [by rewrite final_connectEagerly, final_activate|].
  destruct (succeeds_or_fails env w) as [(p & s & a & Hok)|(requests & e & Hfail)].
  - rewrite (connectEagerly_succeeds env w p s a Hok), (activate_succeeds env w p s a Hok).
    simpl. rewrite !fmap_app, demote_init, !emitted_app. simpl.
    destruct (env_emit env _) as [[]|e]; simpl.
    + repeat split; try done.
      * intros [e He]. rewrite app_nil_r in He.
        apply elem_of_app in He as [He|He]; [by apply init_no_console in He|].
        repeat (apply elem_of_cons in He as [He|He]; [done|]). by apply elem_of_nil in He.
      * intros _ e He. rewrite app_nil_r in He.
        apply elem_of_app in He as [He|He]; [by apply init_no_console in He|].
        repeat (apply elem_of_cons in He as [He|He]; [done|]). by apply elem_of_nil in He.
    + repeat split; try done.
      * intros _. exists e. apply elem_of_app. right. by left.
      * intros H. exfalso. apply (H e). apply elem_of_app. right. by left.
  - rewrite (connectEagerly_fails env w requests e Hfail), (activate_fails env w requests e Hfail).
    simpl. rewrite !fmap_app, demote_init, (demote_requests env w requests e Hfail).
    rewrite !emitted_app. simpl. repeat split; try done.
    + intros _. exists e. apply elem_of_app. right. by left.
    + intros H. exfalso. apply (H e). apply elem_of_app. right. by left.
Qed.

Lemma requests_built env w requests e o :
  fails_at env w requests e -> Forall (built_from o) requests.
Proof. destruct 1; by repeat constructor. Qed.

Lemma perform_built (c : Call Opts Number) w :
  opts (this (final (perform parseInt c w))) = opts (this w)
  /\ Forall (built_from (opts (this w))) (effects (perform parseInt c w)).
Proof.
  assert (forall env, Forall (built_from (opts (this w))) (effects (init env w))) as Hinit.
  { intros env. eapply Forall_impl; [apply init_effects|]. by intros ef [_ ?]. }
  destruct c as [env|env|]; simpl; [| |done].
  - split; [by rewrite final_connectEagerly, init_opts|].
    destruct (succeeds_or_fails env w) as [(p & s & a & Hok)|(requests & e & Hfail)].
    + rewrite (connectEagerly_succeeds env w p s a Hok). simpl.
      repeat (apply Forall_app; split); [done|by repeat constructor|].
      destruct (env_emit env _); by repeat constructor.
    + rewrite (connectEagerly_fails env w requests e Hfail). simpl.
      repeat (apply Forall_app; split); [done| |by repeat constructor].
      by eapply requests_built.
  - split; [by rewrite final_activate, init_opts|].
    destruct (succeeds_or_fails env w) as [(p & s & a & Hok)|(requests & e & Hfail)].
    + rewrite (activate_succeeds env w p s a Hok). simpl.
      repeat (apply Forall_app; split); [done|by repeat constructor|].
      destruct (env_emit env _); by repeat constructor.
    + rewrite (activate_fails env w requests e Hfail). simpl.
      repeat (apply Forall_app; split); [done| |by repeat constructor].
      by eapply requests_built.
Qed.

(** X8.  The options given to the connector's constructor never change,
    and they are the options of every provider the connector constructs,
    wraps or enables, in any series of [connectEagerly], [activate] and
    [deactivate] calls. *)
Theorem providers_built_from_opts (cs : list (Call Opts Number)) w :
  opts (this (perform_all parseInt cs w).1) = opts (this w)
  /\ Forall (built_from (opts (this w))) (perform_all parseInt cs w).2.
Proof.
  revert w. induction cs as [|c cs IH]; intros w; [done|]. simpl.
  destruct (perform_built c w) as [Hopts Hefs].
  specialize (IH (final (perform parseInt c w))).
  destruct (perform_all parseInt cs (final (perform parseInt c w))) as [w' efs].
  simpl in *. rewrite Hopts in IH. destruct IH as [-> Hefs'].
  split; [done|]. by apply Forall_app.
Qed.

Lemma perform_emits_at_most_once (c : Call Opts Number) w :
  length (emitted (effects (perform parseInt c w))) <= if connects c then 1 else 0.
Proof.
  destruct c as [env|env|]; simpl; [| |done].
  - destruct (succeeds_or_fails env w) as [(p & s & a & Hok)|(requests & e & Hfail)].
    + rewrite (connectEagerly_succeeds env w p s a Hok). simpl.
      rewrite !emitted_app, init_emits_nothing. simpl.
      by destruct (env_emit env _).
    + rewrite (connectEagerly_fails env w requests e Hfail). simpl.
      rewrite !emitted_app, init_emits_nothing, (emitted_requests env w requests e Hfail).
      simpl. lia.
  - destruct (succeeds_or_fails env w) as [(p & s & a & Hok)|(requests & e & Hfail)].
    + rewrite (activate_succeeds env w p s a Hok). simpl.
      rewrite !emitted_app, init_emits_nothing. simpl.
      by destruct (env_emit env _).
    + rewrite (activate_fails env w requests e Hfail). simpl.
      rewrite !emitted_app, init_emits_nothing, (emitted_requests env w requests e Hfail).
      simpl. lia.
Qed.

(** X9.  A series of calls emits at most one update event per
    [connectEagerly] or [activate] call in it; [deactivate] emits none, so
    the subscribers of [update] are not told that the connector was
    deactivated. *)
Theorem one_update_per_connecting_call (cs : list (Call Opts Number)) w :
  length (emitted (perform_all parseInt cs w).2) <= length (List.filter connects cs)
  /\ emitted (effects (@deactivate Opts Number w)) = [].
Proof.
  split; [|done].
  revert w. induction cs as [|c cs IH]; intros w; [done|]. simpl.
  pose proof (perform_emits_at_most_once c w) as Hc.
  specialize (IH (final (perform parseInt c w))).
  destruct (perform_all parseInt cs (final (perform parseInt c w))) as [w' efs].
  simpl in *. rewrite emitted_app, length_app.
  destruct (connects c); simpl; lia.
Qed.

Lemma call_effects env w (r : Run Opts Number unit) :
  r = activate parseInt env w \/ r = connectEagerly parseInt env w ->
  exists rest,
    effects r = effects (announce parseInt env w) ++ rest
    /\ forall p m, Send p m ∉ rest.
Proof.
  intros [-> | ->];
    destruct (succeeds_or_fails env w) as [(p' & s & a & Hok)|(requests & e & Hfail)].
  - rewrite (activate_succeeds env w p' s a Hok), (announce_succeeds env w p' s a Hok).
    simpl. eexists. split; [done|]. intros p m Hin.
    destruct (env_emit env _); [by apply elem_of_nil in Hin|].
    apply list_elem_of_singleton in Hin. discriminate.
  - rewrite (activate_fails env w requests e Hfail), (announce_fails env w requests e Hfail).
    simpl. eexists. split; [done|]. intros p m Hin.
    apply list_elem_of_singleton in Hin. discriminate.
  - rewrite (connectEagerly_succeeds env w p' s a Hok), (announce_succeeds env w p' s a Hok).
    simpl. eexists. split; [done|]. intros p m Hin.
    destruct (env_emit env _); [by apply elem_of_nil in Hin|].
    apply list_elem_of_singleton in Hin. discriminate.
  - rewrite (connectEagerly_fails env w requests e Hfail),
            (announce_fails env w requests e Hfail).
    simpl. eexists. split; [done|]. intros p m Hin.
    apply list_elem_of_singleton in Hin. discriminate.
Qed.

(** X10.  A call of [activate] or [connectEagerly] sends a request only
    after its [init] has succeeded; the only methods it sends are
    'eth_chainId' and 'eth_accounts', and 'eth_accounts' only after an
    'eth_chainId' request it has sent before has been answered. *)
Theorem accounts_requested_after_chainId env w (r : Run Opts Number unit)
        (p : Web3Provider Opts) (m : string) :
  r = activate parseInt env w \/ r = connectEagerly parseInt env w ->
  Send p m ∈ effects r ->
  outcome (init env w) = Returns tt
  /\ (m = "eth_chainId"
      \/ (m = "eth_accounts"
          /\ exists before after p0 s,
               effects r = before ++ Send p0 "eth_chainId" :: after
               /\ Send p "eth_accounts" ∈ after
               /\ env_send env p0 _ eth_chainId = Returns s)).
Proof.
  intros Hr Hin. destruct (call_effects env w r Hr) as (rest & Hrest & Hquiet).
  rewrite Hrest in Hin |- *. clear Hr Hrest.
  apply elem_of_app in Hin as [Hin|Hin]; [|by apply Hquiet in Hin].
  destruct (succeeds_or_fails env w) as [(p' & s & a & Hok)|(requests & e & Hfail)].
  - rewrite (announce_succeeds env w p' s a Hok) in Hin |- *. simpl in Hin |- *.
    destruct Hok as (Hinit & Hp & Hs & Ha). split; [done|].
    apply elem_of_app in Hin as [Hin|Hin]; [by apply init_no_send in Hin|].
    rewrite !elem_of_cons, elem_of_nil in Hin.
    destruct Hin as [[= -> ->]|[[= -> ->]|[[=]|[]]]]; [by left|right].
    split; [done|]. eexists (effects (init env w)), _, p', s.
    split; [by rewrite <- app_assoc|]. split; [by left|done].
  - rewrite (announce_fails env w requests e Hfail) in Hin |- *. simpl in Hin |- *.
    apply elem_of_app in Hin as [Hin|Hin]; [by apply init_no_send in Hin|].
    destruct Hfail as [e Hinit|p' e Hinit Hp He|p' s e Hinit Hp Hs He].
    + by apply elem_of_nil in Hin.
    + apply list_elem_of_singleton in Hin as [= -> ->]. split; [done|by left].
    + split; [done|]. rewrite !elem_of_cons, elem_of_nil in Hin.
      destruct Hin as [[= -> ->]|[[= -> ->]|[]]]; [by left|right].
      split; [done|]. eexists (effects (init env w)), _, p', s.
      split; [by rewrite <- app_assoc|]. split; [by left|done].
Qed.

End Facts.
Example activate_wallet_ok :
  activate HexString.to_Z wallet_ok (new_connector "project-id") =
  mkRun (Returns tt)
        (mkWorld (mkConnector (Some first_provider) "project-id") 2)
        [NewWalletConnectProvider "project-id";
         NewWeb3Provider (wrapped first_provider);
         Enable (wrapped first_provider);
         Send first_provider "eth_chainId";
         Send first_provider "eth_accounts";
         Emit (mkConnectorUpdateData 137%Z [account])].
Proof. reflexivity. Qed.

Example activate_wallet_refused :
  activate HexString.to_Z wallet_refused (new_connector "project-id") =
  mkRun (Throws (JsError "Could not activate connector"))
        (mkWorld (mkConnector (Some first_provider) "project-id") 2)
        [NewWalletConnectProvider "project-id";
         NewWeb3Provider (wrapped first_provider);
         Enable (wrapped first_provider);
         ConsoleLog (JsError "User closed modal")].
Proof. reflexivity. Qed.

Example connectEagerly_wallet_silent :
  connectEagerly HexString.to_Z wallet_silent (new_connector "project-id") =
  mkRun (Returns tt)
        (mkWorld (mkConnector (Some first_provider) "project-id") 2)
        [NewWalletConnectProvider "project-id";
         NewWeb3Provider (wrapped first_provider);
         Enable (wrapped first_provider);
         Send first_provider "eth_chainId";
         Send first_provider "eth_accounts";
         ConsoleDebug (Foreign "timeout")].
Proof. reflexivity. Qed.

Lemma activate_emits_once_or_throws_witness :
  succeeds wallet_ok (new_connector "project-id") first_provider "0x89" [account]
  /\ emitted (effects (activate HexString.to_Z wallet_ok (new_connector "project-id"))) =
     [mkConnectorUpdateData 137%Z [account]].
Proof.
  assert (succeeds wallet_ok (new_connector "project-id") first_provider "0x89" [account])
    as Hok by (repeat split; reflexivity).
  split; [exact Hok|].
  destruct (activate_emits_once_or_throws HexString.to_Z wallet_ok
              (new_connector "project-id")) as [Hemit _].
  exact (proj1 (Hemit first_provider "0x89" [account] Hok)).
Defined.

Lemma connectEagerly_never_throws_witness :
  fails_at wallet_silent (new_connector "project-id")
           [Send first_provider "eth_chainId"; Send first_provider "eth_accounts"]
           (Foreign "timeout")
  /\ outcome (connectEagerly HexString.to_Z wallet_silent (new_connector "project-id")) =
     Returns tt
  /\ emitted (effects (connectEagerly HexString.to_Z wallet_silent
                                      (new_connector "project-id"))) = [].
Proof.
  assert (fails_at wallet_silent (new_connector "project-id")
                   [Send first_provider "eth_chainId"; Send first_provider "eth_accounts"]
                   (Foreign "timeout")) as Hfail.
  { by apply (fails_at_accounts _ _ first_provider "0x89"). }
  destruct (connectEagerly_never_throws HexString.to_Z wallet_silent
              (new_connector "project-id")) as (Hout & _ & Hfails & _).
  split; [exact Hfail|]. split; [exact Hout|].
  exact (proj2 (Hfails _ _ Hfail)).
Defined.

Lemma init_reuses_provider_witness :
  let w := final (activate HexString.to_Z wallet_ok (new_connector "project-id")) in
  provider (this w) = Some first_provider
  /\ allocated w
  /\ provider (this (perform_all HexString.to_Z
                                 [Activate wallet_silent; ConnectEagerly wallet_ok] w).1) =
     Some first_provider.
Proof.
  intros w.
  assert (provider (this w) = Some first_provider) as Hp by reflexivity.
  assert (allocated w) as Halloc by (unfold allocated, w; simpl; lia).
  split; [exact Hp|]. split; [exact Halloc|].
  destruct (init_reuses_provider HexString.to_Z wallet_ok w first_provider Hp Halloc)
    as (_ & Hcalls & _).
  refine (proj1 (Hcalls [Activate wallet_silent; ConnectEagerly wallet_ok] _)).
  repeat constructor; discriminate.
Defined.

Lemma failed_enable_is_not_retried_witness :
  let w := new_connector "project-id" in
  let wc := mkWalletConnectProvider (next_obj w) (opts (this w)) in
  let w1 := final (activate HexString.to_Z wallet_refused w) in
  (provider (this w) = None
   /\ env_new_wc wallet_refused (opts (this w)) = Returns tt
   /\ env_new_web3 wallet_refused wc = Returns tt
   /\ env_enable wallet_refused wc = Throws (JsError "User closed modal"))
  /\ outcome (activate HexString.to_Z wallet_refused w) =
     Throws (JsError "Could not activate connector")
  /\ provider (this w1) = Some first_provider
  /\ List.filter sets_up (effects (activate HexString.to_Z wallet_ok w1)) = [].
Proof.
  intros w wc w1. split; [by repeat split|].
  destruct (failed_enable_is_not_retried HexString.to_Z wallet_refused wallet_ok w
              (JsError "User closed modal") eq_refl eq_refl eq_refl eq_refl)
    as (Hthrows & _ & Hprovider & Hquiet & _).
  split; [exact Hthrows|]. split; [exact Hprovider|exact Hquiet].
Defined.

Lemma accounts_requested_after_chainId_witness :
  let r := activate HexString.to_Z wallet_silent (new_connector "project-id") in
  Send first_provider "eth_accounts" ∈ effects r
  /\ exists before after p0 s,
       effects r = before ++ Send p0 "eth_chainId" :: after
       /\ Send first_provider "eth_accounts" ∈ after
       /\ env_send wallet_silent p0 _ eth_chainId = Returns s.
Proof.
  intros r.
  assert (Send first_provider "eth_accounts" ∈ effects r) as Hin.
  { do 4 right. left. }
  split; [exact Hin|].
  destruct (accounts_requested_after_chainId HexString.to_Z wallet_silent
              (new_connector "project-id") r first_provider "eth_accounts"
              (or_introl eq_refl) Hin)
    as (_ & [Hm|[_ Hs]]); [discriminate Hm|exact Hs].
Defined.

Example activate_after_refusal :
  let w1 := final (activate HexString.to_Z wallet_refused (new_connector "project-id")) in
  activate HexString.to_Z wallet_ok w1 =
  mkRun (Returns tt) w1
        [Send first_provider "eth_chainId";
         Send first_provider "eth_accounts";
         Emit (mkConnectorUpdateData 137%Z [account])].
Proof. reflexivity. Qed.

End WalletConnectFacts.
